(** * Actor-critic agents of continuous-rl: value bootstrapping, PPO clipping,
      mixture-density loss and live/target synchronisation.

    The Python sources compute on [torch] tensors of floating-point numbers.
    Here a tensor entry is a real number: rounding, overflow, [nan] and [inf]
    are outside the model, every equation below is an equation on reals.
    A rank-1 tensor is a list of reals; a tensor with a batch axis is a list
    of rows.  Python exceptions are values of [Exception], fallible code
    returns a [Result], code that mutates an object in place returns the
    object as it is left together with the exception that interrupted it,
    if any. *)

From Stdlib Require Import Reals Lra Lia List Bool Arith.
From Stdlib Require String.
Import ListNotations.

Open Scope R_scope.

(** ** Exceptions and results *)

Inductive Exception : Type :=
| RuntimeError   (* torch: shapes that cannot be broadcast together *)
| ValueError     (* raised by [ppo_actor.loss] *)
| IndexError     (* index out of range on a tensor axis *)
| ShapeError.    (* a trajectory batch that cannot be split *)

Inductive Result (A : Type) : Type :=
| Ok (a : A)
| Raise (e : Exception).

Arguments Ok {A} a.
Arguments Raise {A} e.

Definition bind {A B : Type} (c : Result A) (k : A -> Result B) : Result B :=
  match c with
  | Ok a => k a
  | Raise e => Raise e
  end.

Notation "x <- c ;; k" := (bind c (fun x => k))
  (at level 61, c at next level, right associativity).

Fixpoint mapE {A B : Type} (f : A -> Result B) (l : list A) : Result (list B) :=
  match l with
  | [] => Ok []
  | x :: l' => y <- f x ;; ys <- mapE f l' ;; Ok (y :: ys)
  end.

(** ** Rank-1 tensors *)

Definition Tensor : Type := list R.

Definition map2 {A B C : Type} (f : A -> B -> C) (a : list A) (b : list B) : list C :=
  map (fun p => f (fst p) (snd p)) (combine a b).

(** [zip] that refuses lists of different lengths. *)
Fixpoint zipE {A B C : Type} (f : A -> B -> Result C) (a : list A) (b : list B)
    : Result (list C) :=
  match a, b with
  | [], [] => Ok []
  | x :: a', y :: b' => z <- f x y ;; zs <- zipE f a' b' ;; Ok (z :: zs)
  | _, _ => Raise RuntimeError
  end.

(** One axis of torch's broadcasting: along an axis the two sizes are equal,
    or one of them is 1 and that operand is repeated; any other pair of
    sizes is refused.  [f] combines the entries, which are themselves
    tensors of lower rank when the operands have several axes. *)
Definition bcast {A B C : Type} (f : A -> B -> Result C) (a : list A) (b : list B)
    : Result (list C) :=
  match a, b with
  | [x], _ => mapE (f x) b
  | _, [y] => mapE (fun x => f x y) a
  | _, _ => zipE f a b
  end.

Definition pure2 {A B C : Type} (f : A -> B -> C) (x : A) (y : B) : Result C :=
  Ok (f x y).

(** [a (op) b] on two rank-1 tensors. *)
Definition broadcast2 (f : R -> R -> R) (a b : Tensor) : Result Tensor :=
  bcast (pure2 f) a b.

(** [self.op_(other)]: the result is written into [self], so [other] has to
    broadcast to the shape of [self]; [self] is never stretched. *)
Definition inplace2 (f : R -> R -> R) (self other : Tensor) : Result Tensor :=
  match other with
  | [y] => Ok (map (fun x => f x y) self)
  | _ => zipE (pure2 f) self other
  end.

(** [t[..., i]] on one row. *)
Definition index (i : nat) (row : Tensor) : Result R :=
  match nth_error row i with
  | Some x => Ok x
  | None => Raise IndexError
  end.

Definition tsum (a : Tensor) : R := fold_right Rplus 0 a.

(** [a.mean()]; torch returns [nan] on an empty tensor, which the model does
    not represent: statements about [mean] are made on nonempty tensors. *)
Definition mean (a : Tensor) : R := tsum a / INR (length a).

Definition scale (c : R) (a : Tensor) : Tensor := map (Rmult c) a.

Definition neg (a : Tensor) : Tensor := map Ropp a.

(** ** Function approximators

    A network is opaque: its architecture is the function [forward], applied
    to the current parameters, the current buffers and an input.  [parameters] and [buffers] are the tensors that
    [net.parameters()] and [net.buffers()] enumerate, in that order. *)

Record ParametricFunction (In Out : Type) : Type := mkNet {
  forward : list Tensor -> list Tensor -> In -> Out;
  parameters : list Tensor;
  buffers : list Tensor
}.

Arguments mkNet {In Out} forward parameters buffers.
Arguments forward {In Out} p.
Arguments parameters {In Out} p.
Arguments buffers {In Out} p.

(** [net(obs)] *)
Definition call {In Out : Type} (net : ParametricFunction In Out) (obs : In) : Out :=
  forward net (parameters net) (buffers net) obs.

Definition with_parameters {In Out : Type} (net : ParametricFunction In Out)
    (ps : list Tensor) : ParametricFunction In Out :=
  mkNet (forward net) ps (buffers net).

Definition with_buffers {In Out : Type} (net : ParametricFunction In Out)
    (bs : list Tensor) : ParametricFunction In Out :=
  mkNet (forward net) (parameters net) bs.

(** ** pendulum_exp/nn.py *)

Module Nn.

(** [for t, s in zip(targets, srcs): t.op_(s)]: the tensors of the target are
    overwritten one after the other; [zip] stops as soon as either
    enumeration is exhausted; an exception leaves the tensors already
    written as they are. *)
Fixpoint zip_inplace (op : Tensor -> Tensor -> Result Tensor)
    (targets srcs : list Tensor) : list Tensor * option Exception :=
  match targets, srcs with
  | t :: ts, s :: ss =>
      match op t s with
      | Ok t' => let (ts', e) := zip_inplace op ts ss in (t' :: ts', e)
      | Raise e => (t :: ts, Some e)
      end
  | _, _ => (targets, None)
  end.

(** [target.copy_(src)] *)
Definition copy_ (target src : Tensor) : Result Tensor :=
  inplace2 (fun _ s => s) target src.

(** [target.add_(alpha, other)]: [target += alpha * other] *)
Definition add_ (alpha : R) (target other : Tensor) : Result Tensor :=
  inplace2 (fun t o => t + alpha * o) target other.

Definition copy_buffer {In Out : Type} (net target_net : ParametricFunction In Out)
    : ParametricFunction In Out * option Exception :=
  let (bs, e) := zip_inplace copy_ (buffers target_net) (buffers net) in
  (with_buffers target_net bs, e).

Definition soft_update {In Out : Type} (net target_net : ParametricFunction In Out) (tau : R)
    : ParametricFunction In Out * option Exception :=
  match copy_buffer net target_net with
  | (target_net, Some e) => (target_net, Some e)
  | (target_net, None) =>
      let (ps, e) :=
        zip_inplace
          (fun target_param param =>
             d <- broadcast2 Rminus param target_param ;;
             add_ (1 - tau) target_param d)
          (parameters target_net) (parameters net) in
      (with_parameters target_net ps, e)
  end.

Definition hard_update {In Out : Type} (net target_net : ParametricFunction In Out)
    : ParametricFunction In Out * option Exception :=
  match copy_buffer net target_net with
  | (target_net, Some e) => (target_net, Some e)
  | (target_net, None) =>
      let (ps, e) := zip_inplace copy_ (parameters target_net) (parameters net) in
      (with_parameters target_net ps, e)
  end.

(** *** gmm_loss

    Shapes as in the docstring, with one batch axis: [batch] is [(bs, fs)],
    [mus] and [sigmas] are [(bs, gs, fs)], [logpi] is [(bs, gs)].  An axis is
    a level of list nesting. *)

(** Log-density of [N(mu, sigma)] at [x], as [Normal.log_prob] computes it. *)
Definition Normal_log_prob (mu sigma x : R) : R :=
  - ((x - mu) ^ 2) / (2 * sigma ^ 2) - ln sigma - ln (sqrt (2 * PI)).

(** [Normal(mus, sigmas)]: location and scale are broadcast together. *)
Definition Normal (mus sigmas : list (list Tensor)) : Result (list (list (list (R * R)))) :=
  bcast (bcast (bcast (pure2 pair))) mus sigmas.

(** [normal_dist.log_prob(batch)] *)
Definition log_prob (normal_dist : list (list (list (R * R))))
    (batch : list (list Tensor)) : Result (list (list Tensor)) :=
  bcast (bcast (bcast (pure2 (fun p x => Normal_log_prob (fst p) (snd p) x))))
    normal_dist batch.

(** [torch.max(row, dim=-1)[0]]: refused on an axis of size 0. *)
Definition row_max (row : Tensor) : Result R :=
  match row with
  | [] => Raise IndexError
  | x :: row' => Ok (fold_left Rmax row' x)
  end.

(** The result of [gmm_loss]: a 0-dimensional tensor when [reduce] is set, one
    entry per batch item otherwise. *)
Inductive Loss : Type :=
| Scalar (r : R)
| Vector (t : Tensor).

(** [g_probs] after the optional correction: [torch.stack([..., ...], dim=1)]
    builds rows of exactly two entries out of [g_probs[..., 0]] and
    [g_probs[..., 1]]. *)
Definition correct (correction_factor : option R) (g_probs : list Tensor)
    : Result (list Tensor) :=
  match correction_factor with
  | None => Ok g_probs
  | Some correction_factor =>
      g_probs0 <- mapE (index 0) g_probs ;;
      let mask := map (fun g => if Req_dec_T g 1 then 1 else 0) g_probs0 in
      g_probs1 <- mapE (index 1) g_probs ;;
      Ok (map2 (fun a b => [a; b])
            (map2 (fun m g => m * g * correction_factor + (1 - m) * g) mask g_probs0)
            g_probs1)
  end.

Definition gmm_loss (batch : list Tensor) (mus sigmas : list (list Tensor))
    (logpi : list Tensor) (correction_factor : option R) (reduce : bool)
    : Result Loss :=
  let batch := map (fun x => [x]) batch in                    (* unsqueeze(-2) *)
  normal_dist <- Normal mus sigmas ;;
  g_log_probs <- log_prob normal_dist batch ;;
  g_log_probs <- bcast (bcast (pure2 Rplus)) logpi (map (map tsum) g_log_probs) ;;
  max_log_probs <- mapE row_max g_log_probs ;;                (* keepdim: one per row *)
  let g_log_probs :=
    map2 (fun row m => map (fun l => l - m) row) g_log_probs max_log_probs in
  let g_probs := map (map exp) g_log_probs in
  g_probs <- correct correction_factor g_probs ;;
  let probs := map tsum g_probs in
  let log_prob := map2 Rplus max_log_probs (map ln probs) in
  if reduce then Ok (Scalar (- mean log_prob)) else Ok (Vector (neg log_prob)).

End Nn.

(** ** Gradients and optimizers

    A tensor that carries a gradient graph is its value as a function of the
    parameters under optimisation; [detach] freezes it at the current
    parameters.  The optimizer is a black box: [zero_grad()], [backward()] on
    a scalar loss and [step()] together map the loss, as a function of the
    parameters, and the current parameters to the new parameters. *)

Definition Graph (A : Type) : Type := list Tensor -> A.

Definition detach {A : Type} (x : Graph A) (current : list Tensor) : Graph A :=
  fun _ => x current.

Record Optimizer : Type := mkOptimizer {
  step : Graph (Result R) -> list Tensor -> list Tensor
}.

(** A [torch.distributions.Distribution] over actions of type [Act], seen
    through the two methods the sources call; [T] is the shape of their
    results. *)
Record Distribution (Act T : Type) : Type := mkDistribution {
  log_prob : Act -> T;
  entropy : T
}.

Arguments mkDistribution {Act T} log_prob entropy.
Arguments log_prob {Act T} d a.
Arguments entropy {Act T} d.

(** ** memory/memorytrajectory.py *)

Module BatchTraj.

(** Modelled from the spec: the class [BatchTraj] (memory/memorytrajectory.py)
    is not among the sources.  A batch holds [length] time steps of a number
    of parallel episodes.  [obs], [actions], [rewards] and [done] are aligned
    sequences indexed by (episode, time step); a flag of [done] is 1 for a
    terminal transition and 0 otherwise.  [ObsAt] is the type of the
    observation of one episode at one time step, [ActAt] the type of one
    action. *)
Record t (ObsAt ActAt : Type) : Type := mk {
  length : nat;
  obs : list (list ObsAt);
  actions : list (list ActAt);
  rewards : list Tensor;
  done : list Tensor
}.

Arguments mk {ObsAt ActAt} length obs actions rewards done.
Arguments length {ObsAt ActAt} t.
Arguments obs {ObsAt ActAt} t.
Arguments actions {ObsAt ActAt} t.
Arguments rewards {ObsAt ActAt} t.
Arguments done {ObsAt ActAt} t.

(** Modelled from the spec: the invariant of a batch.  The four sequences
    hold the same episodes, and every episode has [length] time steps. *)
Definition wf {ObsAt ActAt : Type} (traj : t ObsAt ActAt) : Prop :=
  Forall (fun episode => List.length episode = length traj) (obs traj)
  /\ Forall (fun episode => List.length episode = length traj) (actions traj)
  /\ Forall (fun episode => List.length episode = length traj) (rewards traj)
  /\ Forall (fun episode => List.length episode = length traj) (done traj)
  /\ List.length (actions traj) = List.length (obs traj)
  /\ List.length (rewards traj) = List.length (obs traj)
  /\ List.length (done traj) = List.length (obs traj).

(** Modelled from the spec: the last time step of one episode.  An episode
    without a time step, which the invariant excludes from a batch of at
    least one time step, has none. *)
Definition last_step {A : Type} (episode : list A) : Result A :=
  match episode with
  | [] => Raise IndexError
  | x :: steps => Ok (last steps x)
  end.

(** Modelled from the spec: [splitlast()] returns the batch without its
    last time step, together with [(last_observation, last_action,
    last_reward, last_done)], one entry per episode each; a batch of fewer
    than one time step is refused with [ShapeError]. *)
Definition splitlast {ObsAt ActAt : Type} (traj : t ObsAt ActAt)
    : Result (t ObsAt ActAt * (list ObsAt * list ActAt * Tensor * Tensor)) :=
  if (length traj <? 1)%nat then Raise ShapeError
  else
    lastobs <- mapE last_step (obs traj) ;;
    lastaction <- mapE last_step (actions traj) ;;
    lastreward <- mapE last_step (rewards traj) ;;
    lastdone <- mapE last_step (done traj) ;;
    Ok (mk (length traj - 1)
          (map (@removelast ObsAt) (obs traj))
          (map (@removelast ActAt) (actions traj))
          (map (@removelast R) (rewards traj))
          (map (@removelast R) (done traj)),
        (lastobs, lastaction, lastreward, lastdone)).

(** Modelled from the spec: [traj.to(device)] returns an equivalent batch. *)
Definition to {ObsAt ActAt : Type} (traj : t ObsAt ActAt) : t ObsAt ActAt := traj.

End BatchTraj.

(** ** critics/a2cvalue.py *)

Module A2CValue.

(** The attributes the methods read; [__init__] is not modelled.
    [_optimizer] is built on [_v_function.parameters()];
    [_target_v_function] starts as a deep copy of [_v_function] and owns its
    tensors. *)
Record t : Type := mk {
  _v_function : ParametricFunction (list Tensor) Tensor;
  _target_v_function : ParametricFunction (list Tensor) Tensor;
  _optimizer : Optimizer;
  _tau : R
}.

Definition value (self : t) (obs : list Tensor) (target : bool) : Tensor :=
  if target then call (_target_v_function self) obs
  else call (_v_function self) obs.

(** [(v - expected_v) ** 2] as a function of the live parameters. *)
Definition v_loss (self : t) (obs : list Tensor) (expected_v : Graph Tensor)
    : Graph (Result Tensor) :=
  fun params =>
    let v := forward (_v_function self) params (buffers (_v_function self)) obs in
    d <- broadcast2 Rminus v (expected_v params) ;;
    Ok (map (fun x => x ^ 2) d).

Definition optimize (self : t) (obs : list Tensor) (expected_v : Graph Tensor)
    : t * Result Tensor :=
  let current := parameters (_v_function self) in
  match v_loss self obs expected_v current with
  | Raise e => (self, Raise e)
  | Ok loss =>
      let params :=
        step (_optimizer self)
          (fun p => l <- v_loss self obs expected_v p ;; Ok (mean l)) current in
      let v_function := with_parameters (_v_function self) params in
      let (target_v_function, e) :=
        Nn.soft_update v_function (_target_v_function self) (_tau self) in
      (mk v_function target_v_function (_optimizer self) (_tau self),
       match e with
       | Some e => Raise e
       | None => Ok loss
       end)
  end.

End A2CValue.

Module A2CValueCritic.

Section Critic.

Context {Act : Type}.

Definition BatchTraj : Type := BatchTraj.t Tensor Act.

(** [_optimizer] is read by [optimize] and assigned nowhere in the class; it is
    taken as given, built like the one of [A2CValue] on the parameters of the
    live value function. *)
Record t : Type := mk {
  _a2cvalue : A2CValue.t;
  _gamma : R;
  _optimizer : Optimizer
}.

Definition critic (self : t) (traj : BatchTraj) (target : bool) : Result Tensor :=
  let length := BatchTraj.length traj in
  split <- BatchTraj.splitlast traj ;;
  let '(trunctraj, (lastobs, _, _, done)) := split in
  let discounts := map (fun t => _gamma self ^ t) (seq 0 length) in
  discounted_rewards <-
    bcast (bcast (pure2 Rmult)) (BatchTraj.rewards trunctraj) [discounts] ;;
  let critic := map tsum discounted_rewards in                  (* sum(dim=1) *)
  bootstrap <-
    broadcast2 Rmult
      (map (fun x => x * _gamma self ^ length) (map (fun d => 1 - d) done))
      (A2CValue.value (_a2cvalue self) lastobs target) ;;
  inplace2 Rplus critic bootstrap.

(** [obs[:, 0]]: the first time step of every episode. *)
Definition first_step (obs : list (list Tensor)) : Result (list Tensor) :=
  mapE (fun episode => match episode with
                       | o :: _ => Ok o
                       | [] => Raise IndexError
                       end) obs.

(** [((v - critic) ** 2).mean()] as a function of the live parameters;
    [critic] is detached, a constant. *)
Definition loss (self : t) (obs0 : list Tensor) (critic : Tensor) : Graph (Result R) :=
  fun params =>
    let v_function := A2CValue._v_function (_a2cvalue self) in
    let v := forward v_function params (buffers v_function) obs0 in
    d <- broadcast2 Rminus v critic ;;
    Ok (mean (map (fun x => x ^ 2) d)).

Definition optimize (self : t) (traj : BatchTraj) : t * Result R :=
  match critic self traj true with
  | Raise e => (self, Raise e)
  | Ok critic =>
      match first_step (BatchTraj.obs traj) with
      | Raise e => (self, Raise e)
      | Ok obs0 =>
          let a2cvalue := _a2cvalue self in
          let current := parameters (A2CValue._v_function a2cvalue) in
          match loss self obs0 critic current with
          | Raise e => (self, Raise e)
          | Ok l =>
              let params := step (_optimizer self) (loss self obs0 critic) current in
              (mk (A2CValue.mk
                     (with_parameters (A2CValue._v_function a2cvalue) params)
                     (A2CValue._target_v_function a2cvalue)
                     (A2CValue._optimizer a2cvalue)
                     (A2CValue._tau a2cvalue))
                  (_gamma self) (_optimizer self),
               Ok l)
          end
      end
  end.

End Critic.

End A2CValueCritic.

(** ** actors/a2cactor.py

    [ObsAt] is the type of one observation and [ActAt] the type of one
    action of the batch, [Param] the type of the tensors the policy network
    returns.  The distributions of torch are parameters:
    [Normal mu sigma] and [Categorical logits] stand for [Normal(mu, sigma)]
    and [Categorical(logits=logits)].  The batch axes are flattened into one:
    [critic_value], the summed log-probabilities and the summed entropies
    have one entry per transition of the batch. *)

Module A2CActorContinuous.

Section Actor.

Context {Obs Param : Type}.

Record t : Type := mk {
  _policy_function : ParametricFunction Obs (Param * Param);
  _optimizer : Optimizer;
  _c_entropy : R
}.

End Actor.

Section Optimize.

Context {ObsAt ActAt Param : Type}.

Local Abbreviation Obs := (list (list ObsAt)).
Local Abbreviation Act := (list (list ActAt)).
Local Abbreviation t := (@t Obs Param).

Variable Normal : Param -> Param -> Distribution Act (list Tensor).

(** [distr] as a function of the policy parameters. *)
Definition distr (self : t) (traj : BatchTraj.t ObsAt ActAt)
    : Graph (Distribution Act (list Tensor)) :=
  fun params =>
    let policy_function := _policy_function self in
    let '(mu, sigma) :=
      forward policy_function params (buffers policy_function) (BatchTraj.obs traj) in
    Normal mu sigma.

Definition loss_critic (self : t) (traj : BatchTraj.t ObsAt ActAt)
    (critic_value : Graph Tensor) (current : list Tensor) : Graph (Result R) :=
  fun params =>
    let action := BatchTraj.actions traj in
    let logp_action := map tsum (log_prob (distr self traj params) action) in
    l <- broadcast2 Rmult (neg logp_action) (detach critic_value current params) ;;
    Ok (mean l).

(** [loss.mean()], the scalar that [backward()] differentiates. *)
Definition loss (self : t) (traj : BatchTraj.t ObsAt ActAt)
    (critic_value : Graph Tensor) (current : list Tensor) : Graph (Result R) :=
  fun params =>
    let entropy := map tsum (entropy (distr self traj params)) in
    loss_critic <- loss_critic self traj critic_value current params ;;
    let loss := map (fun e => loss_critic - _c_entropy self * e) entropy in
    Ok (mean loss).

Definition optimize (self : t) (traj : BatchTraj.t ObsAt ActAt)
    (critic_value : Graph Tensor) : t * option Exception :=
  let traj := BatchTraj.to traj in
  let current := parameters (_policy_function self) in
  match loss self traj critic_value current current with
  | Raise e => (self, Some e)
  | Ok _ =>
      let params := step (_optimizer self) (loss self traj critic_value current) current in
      (mk (with_parameters (_policy_function self) params)
          (_optimizer self) (_c_entropy self),
       None)
  end.

End Optimize.

End A2CActorContinuous.

Module A2CActorDiscrete.

Section Actor.

Context {Obs Param : Type}.

Record t : Type := mk {
  _policy_function : ParametricFunction Obs Param;
  _optimizer : Optimizer;
  _c_entropy : R
}.

End Actor.

Section Optimize.

Context {ObsAt ActAt Param : Type}.

Local Abbreviation Obs := (list (list ObsAt)).
Local Abbreviation Act := (list (list ActAt)).
Local Abbreviation t := (@t Obs Param).

Variable Categorical : Param -> Distribution Act Tensor.

Definition distr (self : t) (traj : BatchTraj.t ObsAt ActAt)
    : Graph (Distribution Act Tensor) :=
  fun params =>
    let policy_function := _policy_function self in
    let logits :=
      forward policy_function params (buffers policy_function) (BatchTraj.obs traj) in
    Categorical logits.

(** [loss.mean()], the scalar that [backward()] differentiates. *)
Definition loss (self : t) (traj : BatchTraj.t ObsAt ActAt)
    (critic_value : Graph Tensor) (current : list Tensor) : Graph (Result R) :=
  fun params =>
    let actions := BatchTraj.actions traj in
    let distr := distr self traj params in
    let logp_actions := log_prob distr actions in
    let entropy := entropy distr in
    a <- broadcast2 Rmult (neg logp_actions) (detach critic_value current params) ;;
    loss <- broadcast2 Rminus a (scale (_c_entropy self) entropy) ;;
    Ok (mean loss).

Definition optimize (self : t) (traj : BatchTraj.t ObsAt ActAt)
    (critic_value : Graph Tensor) : t * option Exception :=
  let traj := BatchTraj.to traj in
  let current := parameters (_policy_function self) in
  match loss self traj critic_value current current with
  | Raise e => (self, Some e)
  | Ok _ =>
      let params := step (_optimizer self) (loss self traj critic_value current) current in
      (mk (with_parameters (_policy_function self) params)
          (_optimizer self) (_c_entropy self),
       None)
  end.

End Optimize.

End A2CActorDiscrete.

(** ** actors/ppo_actor.py *)

Module PPO.

Section Loss.

Context {Act : Type}.

(** [torch.distributions.kl.kl_divergence], one entry per batch item. *)
Variable kl_divergence : Distribution Act Tensor -> Distribution Act Tensor -> Tensor.

(** [critic_value > 0], entry by entry. *)
Definition gt0 (v : R) : bool := if Rlt_dec 0 v then true else false.

(** [torch.clamp(t, max=c)] and [torch.clamp(t, min=c)] *)
Definition clamp_max (t : Tensor) (c : R) : Tensor := map (fun x => Rmin x c) t.
Definition clamp_min (t : Tensor) (c : R) : Tensor := map (fun x => Rmax x c) t.

(** [torch.where(cond, a, b)]: the three operands are broadcast together. *)
Definition where_ (cond : list bool) (a b : Tensor) : Result Tensor :=
  ab <- bcast (pure2 pair) a b ;;
  bcast (pure2 (fun (c : bool) (p : R * R) => if c then fst p else snd p)) cond ab.

(** [np.log] is [ln] on positive arguments; elsewhere numpy answers [-inf] or
    [nan], which the model does not represent. *)
Definition loss (distr : Distribution Act Tensor) (actions : Act) (critic_value : Tensor)
    (c_entropy eps_clamp c_kl : R) (old_logp : Tensor)
    (old_distr : option (Distribution Act Tensor)) : Result R :=
  let logp_action := log_prob distr actions in
  logr <- broadcast2 Rminus logp_action old_logp ;;
  w <- where_ (map gt0 critic_value)
         (clamp_max logr (ln (1 + eps_clamp)))
         (clamp_min logr (ln (1 - eps_clamp))) ;;
  let r_clipped := map exp w in
  loss <- broadcast2 Rmult (neg r_clipped) critic_value ;;
  loss <- (if Req_dec_T c_entropy 0 then Ok loss
           else inplace2 Rminus loss (scale c_entropy (entropy distr))) ;;
  loss <- (if Req_dec_T c_kl 0 then Ok loss
           else match old_distr with
                | None => Raise ValueError
                | Some old_distr =>
                    inplace2 Rplus loss (scale c_kl (kl_divergence old_distr distr))
                end) ;;
  Ok (mean loss).

End Loss.

End PPO.

(** * Vocabulary of the statements and sample inputs *)

(** The shapes of the tensors that [zip] pairs up agree. *)
Definition paired_shapes (targets srcs : list Tensor) : Prop :=
  Forall (fun p => length (fst p) = length (snd p)) (combine targets srcs).

(** Same number of tensors, of the same shapes. *)
Definition same_topology (targets srcs : list Tensor) : Prop :=
  Forall2 (fun t s => length t = length s) targets srcs.

(** [tau * target_param + (1 - tau) * param], entry by entry. *)
Definition blend (tau : R) (target_param param : Tensor) : Tensor :=
  map2 (fun t p => tau * t + (1 - tau) * p) target_param param.

(** A live network with one parameter tensor more than its target, and a
    pair of networks of the same architecture. *)
Definition net_of (ps bs : list Tensor) : ParametricFunction unit unit :=
  mkNet (fun _ _ _ => tt) ps bs.

Definition live_small : ParametricFunction unit unit := net_of [[1]] [[7]].
Definition target_large : ParametricFunction unit unit := net_of [[0]; [5]] [[3]].
Definition live_pair : ParametricFunction unit unit := net_of [[1; 2]; [3]] [[7]].
Definition target_pair : ParametricFunction unit unit := net_of [[0; 4]; [1]] [[3]].

(** [sum_{t=0}^{L-1} gamma^t * reward_t] *)
Definition discounted_sum (gamma : R) (L : nat) (rewards : Tensor) : R :=
  tsum (map (fun t => gamma ^ t * nth t rewards 0) (seq 0 L)).

(** A linear value network [v(o) = w * sum(o)] with its weight as only
    parameter, a critic whose live weight is 2 and whose target weight is 0,
    and a batch of two episodes of two time steps, whose last transitions
    end with the flags [done]. *)
Definition linear_value (w : R) : ParametricFunction (list Tensor) Tensor :=
  mkNet (fun ps _ obs => map (fun o => hd 0 (hd [] ps) * tsum o) obs) [[w]] [].

(** An optimizer whose step leaves the parameters where they are. *)
Definition keep : Optimizer := mkOptimizer (fun _ params => params).

Definition critic_ex : A2CValueCritic.t :=
  A2CValueCritic.mk (A2CValue.mk (linear_value 2) (linear_value 0) keep (1 / 2))
    (1 / 2) keep.

Definition traj_ex (done : Tensor) : @A2CValueCritic.BatchTraj unit :=
  BatchTraj.mk 2%nat [[[5]; [7]]; [[6]; [8]]] [[tt; tt]; [tt; tt]] [[1; 2]; [0; 4]]
    (map (fun d => [0; d]) done).

(** The flags, or rewards, of the last time step of every episode, and the
    observations of the last time step. *)
Definition last_column (m : list Tensor) : Tensor :=
  map (fun episode => last episode 0) m.

Definition last_obs (obs : list (list Tensor)) : list Tensor :=
  map (fun episode => last episode []) obs.

(** The return of one episode of [L] time steps as the specification words
    it: [sum_{t=0}^{L-1} gamma^t * reward_t
          + (1 - done_L) * gamma^L * value(last_observation)]. *)
Definition bootstrapped_return (gamma : R) (L : nat) (rewards : Tensor)
    (done value : R) : R :=
  discounted_sum gamma L rewards + (1 - done) * gamma ^ L * value.

(** Conforming batches of two episodes: one time step, and three. *)
Definition one_step_ex (done : Tensor) : @A2CValueCritic.BatchTraj unit :=
  BatchTraj.mk 1%nat [[[5]]; [[6]]] [[tt]; [tt]] [[1]; [4]] (map (fun d => [d]) done).

Definition three_steps_ex : @A2CValueCritic.BatchTraj unit :=
  BatchTraj.mk 3%nat [[[5]; [7]; [1]]; [[6]; [8]; [3]]] [[tt; tt; tt]; [tt; tt; tt]]
    [[1; 2; 9]; [0; 4; 9]] [[0; 0; 0]; [0; 0; 1]].

(** The clipped log-ratio of one batch item: bounded above by
    [log(1 + eps_clamp)] where the advantage is positive, bounded below by
    [log(1 - eps_clamp)] elsewhere. *)
Definition clipped_log_ratio (eps_clamp advantage log_ratio : R) : R :=
  if Rlt_dec 0 advantage then Rmin log_ratio (ln (1 + eps_clamp))
  else Rmax log_ratio (ln (1 - eps_clamp)).

(** [- r_clipped * advantage], item by item. *)
Definition clipped_objective (eps_clamp : R) (logp old_logp advantage : Tensor) : Tensor :=
  map2 (fun log_ratio a => - (exp (clipped_log_ratio eps_clamp a log_ratio) * a))
    (map2 Rminus logp old_logp) advantage.

(** A distribution over two batch items and a KL divergence, both constant. *)
Definition distr_ex : Distribution unit Tensor := mkDistribution (fun _ => [0; 0]) [1; 1].
Definition kl_ex (p q : Distribution unit Tensor) : Tensor := [2; 2].

(** [sum_features log N(x | mu, sigma)] *)
Definition gaussian_log_likelihood (x mu sigma : Tensor) : R :=
  tsum (map2 (fun p v => Nn.Normal_log_prob (fst p) (snd p) v) (map2 pair mu sigma) x).

(** [logpi_k + sum_features log N(x | mu_k, sigma_k)] for the components [k]
    of one batch item. *)
Definition item_log_probs (x : Tensor) (mu sigma : list Tensor) (logpi : Tensor) : Tensor :=
  map2 Rplus logpi (map2 (gaussian_log_likelihood x) mu sigma).

(** [g_log_probs] before the shift: one row of component log-probabilities
    per batch item. *)
Fixpoint rows (batch : list Tensor) (mus sigmas : list (list Tensor))
    (logpi : list Tensor) : list Tensor :=
  match batch, mus, sigmas, logpi with
  | x :: batch, mu :: mus, sigma :: sigmas, lp :: logpi =>
      item_log_probs x mu sigma lp :: rows batch mus sigmas logpi
  | _, _, _, _ => []
  end.

(** The shapes of the docstring: every item has [fs] features, every
    component of an item a mean and a deviation per feature and a weight. *)
Inductive gmm_shapes :
  list Tensor -> list (list Tensor) -> list (list Tensor) -> list Tensor -> Prop :=
| shapes_nil : gmm_shapes [] [] [] []
| shapes_cons x mu sigma lp batch mus sigmas logpi :
    Forall2 (fun m s => length m = length x /\ length s = length x) mu sigma ->
    length lp = length mu ->
    gmm_shapes batch mus sigmas logpi ->
    gmm_shapes (x :: batch) (mu :: mus) (sigma :: sigmas) (lp :: logpi).

(** The largest entry of a nonempty row. *)
Definition Rmax_list (row : Tensor) : R :=
  match row with
  | [] => 0
  | x :: row' => fold_left Rmax row' x
  end.

(** [g_probs] of one row: [exp(l_k - max)] *)
Definition shifted_probs (row : Tensor) : Tensor :=
  map exp (map (fun l => l - Rmax_list row) row).

(** The log-probability of one item on the path without correction. *)
Definition shifted_logsumexp (row : Tensor) : R :=
  Rmax_list row + ln (tsum (shifted_probs row)).

(** The log-probability of one item on the path with a correction factor:
    its summed probability has the two terms of components 0 and 1. *)
Definition corrected_log_prob (correction_factor : R) (row : Tensor) : R :=
  let g0 := exp (nth 0 row 0 - Rmax_list row) in
  let g1 := exp (nth 1 row 0 - Rmax_list row) in
  let mask := if Req_dec_T g0 1 then 1 else 0 in
  Rmax_list row + ln (mask * g0 * correction_factor + (1 - mask) * g0 + g1).

(** The last two lines of [gmm_loss]. *)
Definition finish (reduce : bool) (log_prob : Tensor) : Nn.Loss :=
  if reduce then Nn.Scalar (- mean log_prob) else Nn.Vector (neg log_prob).

(** The tensors of a mixture with a single component per item and weight
    [logpi = 0]. *)
Definition single (ts : list Tensor) : list (list Tensor) := map (fun t => [t]) ts.
Definition zero_logpi (batch : list Tensor) : list Tensor := map (fun _ => [0]) batch.

(** Two policies with a weight [w] as only parameter: a Gaussian one with
    means [(w, 2w)] over two transitions and a categorical one, a batch of
    two episodes of one time step, and an advantage of 1 and 2. *)
Definition Normal_ex (mu sigma : Tensor) : Distribution (list (list unit)) (list Tensor) :=
  mkDistribution (fun _ => map (fun m => [m; m]) mu) (map (fun s => [s]) sigma).

Definition Categorical_ex (logits : Tensor) : Distribution (list (list unit)) Tensor :=
  mkDistribution (fun _ => logits) logits.

Definition continuous_ex : @A2CActorContinuous.t (list (list unit)) Tensor :=
  A2CActorContinuous.mk
    (mkNet (fun ps _ _ => let w := hd 0 (hd [] ps) in ([w; 2 * w], [1; 1])) [[3]] [])
    keep (1 / 10).

Definition discrete_ex : @A2CActorDiscrete.t (list (list unit)) Tensor :=
  A2CActorDiscrete.mk
    (mkNet (fun ps _ _ => let w := hd 0 (hd [] ps) in [w; 2 * w]) [[3]] [])
    keep (1 / 10).

Definition batch_ex : BatchTraj.t unit unit :=
  BatchTraj.mk 1%nat [[tt]; [tt]] [[tt]; [tt]] [[0]; [0]] [[0]; [0]].

(** * More of the sources *)

(** ** nn.py: the [LogSoftmax] wrapper *)

Module LogSoftmax.

(** [f.log_softmax(row, dim=-1)]: every entry minus the logarithm of the sum
    of the exponentials of the row. *)
Definition log_softmax (row : Tensor) : Tensor :=
  map (fun x => x - ln (tsum (map exp row))) row.

(** [LogSoftmax(core)]: the module owns no tensor of its own, its parameters
    and buffers are those of [core]; [forward] normalises the rows that
    [core] returns. *)
Definition wrap {In : Type} (core : ParametricFunction In (list Tensor))
    : ParametricFunction In (list Tensor) :=
  mkNet (fun params bufs inputs => map log_softmax (forward core params bufs inputs))
    (parameters core) (buffers core).

End LogSoftmax.

(** ** a2cactor.py: the deterministic action and the action probabilities of
    the discrete actor

    The policy network returns one row of logits per observation. *)

Module A2CActorDiscreteAct.

(** [torch.argmax(row, dim=-1)]: the index of the first largest entry;
    refused on an axis of size 0. *)
Fixpoint argmax_from (best_i : nat) (best : R) (i : nat) (row : Tensor) : nat :=
  match row with
  | [] => best_i
  | x :: row' =>
      if Rlt_dec best x then argmax_from i x (S i) row'
      else argmax_from best_i best (S i) row'
  end.

Definition argmax (row : Tensor) : Result nat :=
  match row with
  | [] => Raise IndexError
  | x :: row' => Ok (argmax_from 0 x 1 row')
  end.

(** [torch.softmax(row, dim=-1)] *)
Definition softmax (row : Tensor) : Tensor :=
  map (fun x => exp x / tsum (map exp row)) row.

Section Actor.

Context {Obs : Type}.

Definition act (self : @A2CActorDiscrete.t Obs (list Tensor)) (obs : Obs)
    : Result (list nat) :=
  mapE argmax (call (A2CActorDiscrete._policy_function self) obs).

(** [torch.softmax(policy(obs), dim=-1)[:, 0]] *)
Definition actions (self : @A2CActorDiscrete.t Obs (list Tensor)) (obs : Obs)
    : Result Tensor :=
  mapE (index 0) (map softmax (call (A2CActorDiscrete._policy_function self) obs)).

End Actor.

End A2CActorDiscreteAct.

(** ** ppo_actor.py: the two actor classes

    Both classes read the coefficients of the loss from the instance;
    [_c_entropy] is set by the base class, which is not among the sources. *)

Module PPOActorContinuous.

Record t : Type := mk {
  _c_entropy : R;
  _eps_clamp : R;
  _c_kl : R
}.

Definition loss {Act : Type}
    (kl_divergence : Distribution Act Tensor -> Distribution Act Tensor -> Tensor)
    (self : t) (distr : Distribution Act Tensor) (actions : Act)
    (critic_value old_logp : Tensor) (old_distr : option (Distribution Act Tensor))
    : Result R :=
  PPO.loss kl_divergence distr actions critic_value (_c_entropy self)
    (_eps_clamp self) (_c_kl self) old_logp old_distr.

End PPOActorContinuous.

Module PPOActorDiscrete.

Record t : Type := mk {
  _c_entropy : R;
  _eps_clamp : R;
  _c_kl : R
}.

Definition loss {Act : Type}
    (kl_divergence : Distribution Act Tensor -> Distribution Act Tensor -> Tensor)
    (self : t) (distr : Distribution Act Tensor) (actions : Act)
    (critic_value old_logp : Tensor) (old_distr : option (Distribution Act Tensor))
    : Result R :=
  PPO.loss kl_divergence distr actions critic_value (_c_entropy self)
    (_eps_clamp self) (_c_kl self) old_logp old_distr.

End PPOActorDiscrete.

(** ** Vocabulary of the further statements *)

(** What a hard update leaves in the target: the live tensors on the
    positions that [zip] pairs up, the old target tensors behind them. *)
Definition synced (targets srcs : list Tensor) : list Tensor :=
  firstn (length targets) srcs ++ skipn (length srcs) targets.

(** [n] soft updates of the target towards the same live network. *)
Definition soft_updates {In Out : Type} (n : nat) (net target_net : ParametricFunction In Out)
    (tau : R) : ParametricFunction In Out :=
  Nat.iter n (fun target_net => fst (Nn.soft_update net target_net tau)) target_net.

(** The mixture density of the docstring at one batch item,
    [sum_k pi_k * N(x | mu_k, sigma_k)], with [pi_k = exp(logpi_k)] and the
    density of a component the product of its densities over the features. *)
Definition item_likelihood (x : Tensor) (mu sigma : list Tensor) (logpi : Tensor) : R :=
  tsum (map2 (fun lp ll => exp lp * exp ll) logpi
          (map2 (gaussian_log_likelihood x) mu sigma)).

Fixpoint likelihoods (batch : list Tensor) (mus sigmas : list (list Tensor))
    (logpi : list Tensor) : Tensor :=
  match batch, mus, sigmas, logpi with
  | x :: batch, mu :: mus, sigma :: sigmas, lp :: logpi =>
      item_likelihood x mu sigma lp :: likelihoods batch mus sigmas logpi
  | _, _, _, _ => []
  end.

(** [v_loss.mean()] of [A2CValue.optimize] as a function of the live
    parameters, and the parameters its optimizer step yields. *)
Definition mean_v_loss (self : A2CValue.t) (obs : list Tensor) (expected_v : Graph Tensor)
    : Graph (Result R) :=
  fun params => l <- A2CValue.v_loss self obs expected_v params ;; Ok (mean l).

Definition stepped (self : A2CValue.t) (obs : list Tensor) (expected_v : Graph Tensor)
    : list Tensor :=
  step (A2CValue._optimizer self) (mean_v_loss self obs expected_v)
    (parameters (A2CValue._v_function self)).

(** A discrete actor whose policy returns the logits of two observations. *)
Definition logits_ex : @A2CActorDiscrete.t unit (list Tensor) :=
  A2CActorDiscrete.mk
    (mkNet (fun ps _ _ => let w := hd 0 (hd [] ps) in [[w; 2 * w]; [1; 0; 1]]) [[3]] [])
    keep (1 / 10).

(** ** pendulum_exp/monitoring.py: [summary]

    [logs] maps the name of a metric to its series, a list of
    [(timestamp, value)] pairs; timestamps and values are numbers.  A printed
    line is the list of its fields, named after the labels of the format
    string; the two [.2e] formats are not modelled. *)

Module Monitoring.

Import String.StringSyntax.
Local Open Scope string_scope.

(** The two metrics of [metrics]. *)
Definition Avg_adv_loss : String.string := "Avg_adv_loss".
Definition Return : String.string := "Return".

Inductive Error : Type :=
| KeyError (key : String.string)   (* [logs[met]] on a missing metric *)
| ValueError.                      (* [max] or [min] of an empty sequence *)

Definition Series : Type := list (R * R).

(** [max(l, key=key)] and [min(l, key=key)]: the first entry whose key no
    other entry beats. *)
Definition max_ {A : Type} (key : A -> R) (l : list A) : Error + A :=
  match l with
  | [] => inl ValueError
  | x :: l' =>
      inr (fold_left (fun best y => if Rlt_dec (key best) (key y) then y else best) l' x)
  end.

Definition min_ {A : Type} (key : A -> R) (l : list A) : Error + A :=
  match l with
  | [] => inl ValueError
  | x :: l' =>
      inr (fold_left (fun best y => if Rlt_dec (key y) (key best) then y else best) l' x)
  end.

Inductive Line : Type :=
| Summary
| Metric (name : String.string) (best_value best_at_ts current_value current_at_ts : R).

(** One turn of the loop over [metrics]; [f] is [min] or [max]. *)
Definition report (logs : String.string -> option Series) (met : String.string)
    (f : (R * R -> R) -> Series -> Error + R * R) : Error + Line :=
  match logs met with
  | None => inl (KeyError met)
  | Some metval =>
      match max_ fst metval with
      | inl e => inl e
      | inr (curr_ts, curr_val) =>
          match f snd metval with
          | inl e => inl e
          | inr (best_ts, best_val) =>
              (* format(met, best_val, curr_val, best_ts, curr_ts) *)
              inr (Metric met best_val curr_val best_ts curr_ts)
          end
      end
  end.

(** The lines printed, and the exception that ended the function, if any. *)
Definition summary (logs : String.string -> option Series) : list Line * option Error :=
  match report logs Avg_adv_loss min_ with
  | inl e => ([Summary], Some e)
  | inr line1 =>
      match report logs Return max_ with
      | inl e => ([Summary; line1], Some e)
      | inr line2 => ([Summary; line1; line2], None)
      end
  end.

End Monitoring.

(** * Properties *)

(** ** Results and broadcasting on operands of equal shapes *)

Lemma mapE_ok {A B : Type} (f : A -> Result B) (g : A -> B) (l : list A) :
  Forall (fun x => f x = Ok (g x)) l -> mapE f l = Ok (map g l).
Proof.
  induction 1 as [|x l Hx _ IH]; simpl; [reflexivity|].
  rewrite Hx, IH. reflexivity.
Qed.

Lemma zipE_ok {A B C : Type} (f : A -> B -> Result C) (g : A -> B -> C)
    (a : list A) (b : list B) :
  Forall2 (fun x y => f x y = Ok (g x y)) a b -> zipE f a b = Ok (map2 g a b).
Proof.
  induction 1 as [|x y a b Hxy _ IH]; simpl; [reflexivity|].
  rewrite Hxy, IH. reflexivity.
Qed.

Lemma bcast_ok {A B C : Type} (f : A -> B -> Result C) (g : A -> B -> C)
    (a : list A) (b : list B) :
  Forall2 (fun x y => f x y = Ok (g x y)) a b -> bcast f a b = Ok (map2 g a b).
Proof.
  intros H. pose proof (zipE_ok f g a b H) as Hz.
  destruct H as [|x y a b Hxy Hab]; [exact Hz|].
  destruct Hab as [|x' y' a b Hxy' Hab]; [|exact Hz].
  unfold bcast. simpl. rewrite Hxy. reflexivity.
Qed.

Lemma Forall2_same_length {A B : Type} (P : A -> B -> Prop) (a : list A) (b : list B) :
  length a = length b -> (forall x y, P x y) -> Forall2 P a b.
Proof.
  revert b. induction a as [|x a IH]; intros [|y b] Hlen HP;
    try discriminate; constructor; auto.
Qed.

Lemma broadcast2_same (f : R -> R -> R) (a b : Tensor) :
  length a = length b -> broadcast2 f a b = Ok (map2 f a b).
Proof.
  intros H. unfold broadcast2. apply bcast_ok.
  apply Forall2_same_length; [exact H | reflexivity].
Qed.

Lemma inplace2_same (f : R -> R -> R) (self other : Tensor) :
  length self = length other -> inplace2 f self other = Ok (map2 f self other).
Proof.
  intros H. unfold inplace2.
  assert (Hz : zipE (pure2 f) self other = Ok (map2 f self other)).
  { apply zipE_ok. apply Forall2_same_length; [exact H | reflexivity]. }
  destruct other as [|y [|y' other]]; try exact Hz.
  destruct self as [|x [|x' self]]; try discriminate. reflexivity.
Qed.

Lemma map2_length {A B C : Type} (f : A -> B -> C) (a : list A) (b : list B) :
  length a = length b -> length (map2 f a b) = length a.
Proof.
  intros H. unfold map2. rewrite length_map, length_combine. lia.
Qed.

Lemma map2_cons {A B C : Type} (f : A -> B -> C) x y (a : list A) (b : list B) :
  map2 f (x :: a) (y :: b) = f x y :: map2 f a b.
Proof. reflexivity. Qed.

Lemma map2_ext_in {A B C : Type} (f g : A -> B -> C) (a : list A) (b : list B) :
  Forall (fun p => f (fst p) (snd p) = g (fst p) (snd p)) (combine a b) ->
  map2 f a b = map2 g a b.
Proof.
  unfold map2. induction 1 as [|p l Hp _ IH]; simpl; [reflexivity|].
  rewrite Hp, IH. reflexivity.
Qed.

(** ** Synchronisation of a target network (nn.py) *)

Lemma same_topology_paired (targets srcs : list Tensor) :
  same_topology targets srcs -> paired_shapes targets srcs.
Proof.
  induction 1; simpl; constructor; auto.
Qed.

Lemma same_topology_length (targets srcs : list Tensor) :
  same_topology targets srcs -> length targets = length srcs.
Proof. apply Forall2_length. Qed.

Lemma zip_inplace_ok (op : Tensor -> Tensor -> Result Tensor)
    (g : Tensor -> Tensor -> Tensor) (targets srcs : list Tensor) :
  Forall (fun p => op (fst p) (snd p) = Ok (g (fst p) (snd p))) (combine targets srcs) ->
  Nn.zip_inplace op targets srcs =
    (map2 g targets srcs ++ skipn (length srcs) targets, None).
Proof.
  revert srcs. induction targets as [|t ts IH]; intros [|s ss] H; simpl in *;
    try reflexivity.
  inversion H as [|p l Hp Hl]; subst. simpl in Hp.
  rewrite Hp, (IH ss Hl). reflexivity.
Qed.

Lemma map2_snd_same {A B : Type} (a : list A) (b : list B) :
  length a = length b -> map2 (fun _ s => s) a b = b.
Proof.
  revert b. induction a as [|x a IH]; intros [|y b] H;
    try discriminate; [reflexivity|].
  rewrite map2_cons, IH by (simpl in H; lia). reflexivity.
Qed.

Lemma copy_same (target src : Tensor) :
  length target = length src -> Nn.copy_ target src = Ok src.
Proof.
  intros H. unfold Nn.copy_.
  rewrite inplace2_same, map2_snd_same by exact H. reflexivity.
Qed.

Lemma soft_step_same (tau : R) (target_param param : Tensor) :
  length target_param = length param ->
  (d <- broadcast2 Rminus param target_param ;; Nn.add_ (1 - tau) target_param d)
  = Ok (blend tau target_param param).
Proof.
  intros H. rewrite broadcast2_same by (symmetry; exact H). simpl.
  unfold Nn.add_. rewrite inplace2_same by (rewrite map2_length; lia).
  apply f_equal. unfold blend. revert param H.
  induction target_param as [|t target_param IH]; intros [|p param] H;
    try discriminate; [reflexivity|].
  rewrite !map2_cons, IH by (simpl in H; lia). f_equal. ring.
Qed.

Lemma zip_copy (targets srcs : list Tensor) :
  paired_shapes targets srcs ->
  Nn.zip_inplace Nn.copy_ targets srcs =
    (firstn (length targets) srcs ++ skipn (length srcs) targets, None).
Proof.
  intros H.
  rewrite (zip_inplace_ok Nn.copy_ (fun _ s => s)).
  - apply f_equal2; [|reflexivity]. apply f_equal2; [|reflexivity].
    clear H. revert srcs.
    induction targets as [|t ts IH]; intros [|s ss]; simpl; try reflexivity.
    rewrite <- IH. reflexivity.
  - eapply Forall_impl; [|exact H]. intros [t s] Hts. apply copy_same, Hts.
Qed.

Lemma zip_blend (tau : R) (targets srcs : list Tensor) :
  paired_shapes targets srcs ->
  Nn.zip_inplace
    (fun target_param param =>
       d <- broadcast2 Rminus param target_param ;; Nn.add_ (1 - tau) target_param d)
    targets srcs =
    (map2 (blend tau) targets srcs ++ skipn (length srcs) targets, None).
Proof.
  intros H. apply zip_inplace_ok.
  eapply Forall_impl; [|exact H]. intros [t s] Hts. apply soft_step_same, Hts.
Qed.

Lemma soft_update_zip {In Out : Type} (net target_net : ParametricFunction In Out) (tau : R) :
  paired_shapes (parameters target_net) (parameters net) ->
  paired_shapes (buffers target_net) (buffers net) ->
  Nn.soft_update net target_net tau =
    (mkNet (forward target_net)
       (map2 (blend tau) (parameters target_net) (parameters net)
          ++ skipn (length (parameters net)) (parameters target_net))
       (firstn (length (buffers target_net)) (buffers net)
          ++ skipn (length (buffers net)) (buffers target_net)),
     None).
Proof.
  intros Hp Hb. unfold Nn.soft_update, Nn.copy_buffer.
  rewrite (zip_copy _ _ Hb). simpl. rewrite (zip_blend tau _ _ Hp). reflexivity.
Qed.

Lemma hard_update_zip {In Out : Type} (net target_net : ParametricFunction In Out) :
  paired_shapes (parameters target_net) (parameters net) ->
  paired_shapes (buffers target_net) (buffers net) ->
  Nn.hard_update net target_net =
    (mkNet (forward target_net)
       (firstn (length (parameters target_net)) (parameters net)
          ++ skipn (length (parameters net)) (parameters target_net))
       (firstn (length (buffers target_net)) (buffers net)
          ++ skipn (length (buffers net)) (buffers target_net)),
     None).
Proof.
  intros Hp Hb. unfold Nn.hard_update, Nn.copy_buffer.
  rewrite (zip_copy _ _ Hb). simpl. rewrite (zip_copy _ _ Hp). reflexivity.
Qed.

(** C4: for a live/target pair of matching topology and every [tau],
    [soft_update] replaces each target parameter by
    [tau * target_param + (1 - tau) * live_param], entry by entry, replaces
    the buffers of the target by those of the live network, unblended, and
    raises nothing. *)
Theorem soft_update_matching_topology {In Out : Type}
    (net target_net : ParametricFunction In Out) (tau : R) :
  same_topology (parameters target_net) (parameters net) ->
  same_topology (buffers target_net) (buffers net) ->
  Nn.soft_update net target_net tau =
    (mkNet (forward target_net)
       (map2 (map2 (fun target_param param => tau * target_param + (1 - tau) * param))
          (parameters target_net) (parameters net))
       (buffers net),
     None).
Proof.
  intros Hp Hb.
  rewrite soft_update_zip by (apply same_topology_paired; assumption).
  rewrite <- (same_topology_length _ _ Hp), <- (same_topology_length _ _ Hb).
  rewrite !skipn_all, !firstn_all2, !app_nil_r
    by (rewrite (same_topology_length _ _ Hb); lia).
  reflexivity.
Qed.

Lemma soft_update_matching_topology_witness :
  Nn.soft_update live_pair target_pair (1 / 2) =
    (net_of
       (map2 (map2 (fun target_param param => 1 / 2 * target_param + (1 - 1 / 2) * param))
          [[0; 4]; [1]] [[1; 2]; [3]])
       [[7]],
     None).
Proof.
  apply (soft_update_matching_topology live_pair target_pair (1 / 2));
    repeat constructor.
Defined.

(** C9, as the spec states it, fails: a live network with one parameter
    tensor and a target with two have mismatching topologies, and both
    updates complete without an error, the second target parameter left as
    it was. *)
Lemma update_mismatch_completes :
  ~ same_topology (parameters target_large) (parameters live_small)
  /\ Nn.soft_update live_small target_large 0 = (net_of [[1]; [5]] [[7]], None)
  /\ Nn.hard_update live_small target_large = (net_of [[1]; [5]] [[7]], None).
Proof.
  split; [|split].
  - intros H. apply same_topology_length in H. discriminate H.
  - rewrite soft_update_zip by (repeat constructor). simpl.
    unfold net_of, blend, map2. simpl.
    replace (0 * 0 + (1 - 0) * 1) with 1 by ring. reflexivity.
  - rewrite hard_update_zip by (repeat constructor). reflexivity.
Qed.

(** C9, amended: neither update checks the topology.  Parameters and buffers
    are paired by position up to the shorter enumeration; whenever the
    paired tensors have equal shapes, both updates complete without an
    error, the paired target tensors are blended (soft) or overwritten
    (hard, and buffers), and the target tensors beyond the enumeration of
    the live network stay as they were. *)
Theorem updates_pair_by_position {In Out : Type}
    (net target_net : ParametricFunction In Out) (tau : R) :
  paired_shapes (parameters target_net) (parameters net) ->
  paired_shapes (buffers target_net) (buffers net) ->
  Nn.soft_update net target_net tau =
    (mkNet (forward target_net)
       (map2 (map2 (fun target_param param => tau * target_param + (1 - tau) * param))
          (parameters target_net) (parameters net)
          ++ skipn (length (parameters net)) (parameters target_net))
       (firstn (length (buffers target_net)) (buffers net)
          ++ skipn (length (buffers net)) (buffers target_net)),
     None)
  /\ Nn.hard_update net target_net =
    (mkNet (forward target_net)
       (firstn (length (parameters target_net)) (parameters net)
          ++ skipn (length (parameters net)) (parameters target_net))
       (firstn (length (buffers target_net)) (buffers net)
          ++ skipn (length (buffers net)) (buffers target_net)),
     None).
Proof.
  intros Hp Hb. split.
  - apply soft_update_zip; assumption.
  - apply hard_update_zip; assumption.
Qed.

Lemma updates_pair_by_position_witness :
  Nn.soft_update live_small target_large (1 / 2) =
    (net_of [[1 / 2 * 0 + (1 - 1 / 2) * 1]; [5]] [[7]], None)
  /\ Nn.hard_update live_small target_large = (net_of [[1]; [5]] [[7]], None).
Proof.
  apply (updates_pair_by_position live_small target_large (1 / 2));
    repeat constructor.
Defined.

(** ** The bootstrapped return (a2cvalue.py) *)

Lemma bcast_rows {A B C : Type} (f : A -> B -> Result C) (a : list A) (y : B) :
  bcast f a [y] = mapE (fun x => f x y) a.
Proof.
  destruct a as [|x [|x' a]]; reflexivity.
Qed.

Lemma nth_map2 {A B C : Type} (f : A -> B -> C) (a : list A) (b : list B)
    (i : nat) (da : A) (db : B) (dc : C) :
  (i < length a)%nat -> length a = length b ->
  nth i (map2 f a b) dc = f (nth i a da) (nth i b db).
Proof.
  revert b i. induction a as [|x a IH]; intros [|y b] i Hi Hlen;
    simpl in Hi, Hlen; try lia.
  rewrite map2_cons. destruct i as [|i]; [reflexivity|]. simpl.
  apply IH; lia.
Qed.

(** ** Sums and means *)

Lemma tsum_map2_linear (k : R) (a b : Tensor) :
  length a = length b ->
  tsum (map2 (fun x y => x + k * y) a b) = tsum a + k * tsum b.
Proof.
  revert b. induction a as [|x a IH]; intros [|y b] H; try discriminate;
    [simpl; ring|].
  rewrite map2_cons. simpl. rewrite IH by (simpl in H; lia). ring.
Qed.

Lemma mean_map2_linear (k : R) (a b : Tensor) :
  length a = length b ->
  mean (map2 (fun x y => x + k * y) a b) = mean a + k * mean b.
Proof.
  intros H. unfold mean.
  rewrite tsum_map2_linear, map2_length, <- H by exact H.
  unfold Rdiv. ring.
Qed.

Lemma mean_minus_scale (c : R) (a b : Tensor) :
  length a = length b ->
  mean (map2 Rminus a (scale c b)) = mean a - c * mean b.
Proof.
  intros H.
  replace (map2 Rminus a (scale c b)) with (map2 (fun x y => x + (- c) * y) a b).
  - rewrite mean_map2_linear by exact H. ring.
  - revert b H. induction a as [|x a IH]; intros [|y b] H; try discriminate;
      [reflexivity|].
    simpl scale. rewrite !map2_cons, IH by (simpl in H; lia). f_equal. ring.
Qed.

Lemma mean_plus_scale (c : R) (a b : Tensor) :
  length a = length b ->
  mean (map2 Rplus a (scale c b)) = mean a + c * mean b.
Proof.
  intros H.
  replace (map2 Rplus a (scale c b)) with (map2 (fun x y => x + c * y) a b).
  - apply mean_map2_linear, H.
  - revert b H. induction a as [|x a IH]; intros [|y b] H; try discriminate;
      [reflexivity|].
    simpl scale. rewrite !map2_cons, IH by (simpl in H; lia). reflexivity.
Qed.

Lemma mean_neg (a : Tensor) : mean (neg a) = - mean a.
Proof.
  unfold mean, neg. rewrite length_map.
  replace (tsum (map Ropp a)) with (- tsum a).
  - unfold Rdiv. ring.
  - induction a as [|x a IH]; simpl; [ring|]. rewrite <- IH. ring.
Qed.

Lemma scale_length (c : R) (a : Tensor) : length (scale c a) = length a.
Proof. apply length_map. Qed.

(** ** The PPO loss (ppo_actor.py) *)

Lemma where_same (cond : list bool) (a b : Tensor) :
  length a = length cond -> length b = length cond ->
  PPO.where_ cond a b =
    Ok (map2 (fun (c : bool) (p : R * R) => if c then fst p else snd p)
          cond (map2 pair a b)).
Proof.
  intros Ha Hb. unfold PPO.where_.
  rewrite (bcast_ok _ pair)
    by (apply Forall2_same_length; [congruence | reflexivity]).
  simpl. apply bcast_ok. apply Forall2_same_length; [|reflexivity].
  rewrite map2_length; congruence.
Qed.

Lemma clipped_items (eps_clamp : R) (logr critic_value : Tensor) :
  length logr = length critic_value ->
  map2 Rmult
    (neg (map exp
       (map2 (fun (c : bool) (p : R * R) => if c then fst p else snd p)
          (map PPO.gt0 critic_value)
          (map2 pair (PPO.clamp_max logr (ln (1 + eps_clamp)))
             (PPO.clamp_min logr (ln (1 - eps_clamp)))))))
    critic_value
  = map2 (fun log_ratio a => - (exp (clipped_log_ratio eps_clamp a log_ratio) * a))
      logr critic_value.
Proof.
  unfold map2. revert critic_value.
  induction logr as [|x logr IH]; intros [|v critic_value] H; try discriminate;
    [reflexivity|].
  simpl. rewrite <- (IH critic_value) by (simpl in H; lia).
  f_equal. unfold clipped_log_ratio, PPO.gt0. destruct (Rlt_dec 0 v); ring.
Qed.

Section PPOLoss.

Context {Act : Type}.

Variable kl_divergence : Distribution Act Tensor -> Distribution Act Tensor -> Tensor.
Variable distr : Distribution Act Tensor.
Variable actions : Act.
Variable critic_value old_logp : Tensor.
Variables c_entropy eps_clamp c_kl : R.

Hypothesis Hlogp : length (log_prob distr actions) = length critic_value.
Hypothesis Hold : length old_logp = length critic_value.
Hypothesis Hentropy :
  c_entropy <> 0 -> length (entropy distr) = length critic_value.
Hypothesis Hkl :
  c_kl <> 0 ->
  forall old_distr, length (kl_divergence old_distr distr) = length critic_value.

Local Abbreviation base :=
  (clipped_objective eps_clamp (log_prob distr actions) old_logp critic_value).

Lemma base_length : length base = length critic_value.
Proof.
  unfold clipped_objective.
  rewrite map2_length; rewrite map2_length; congruence.
Qed.

Lemma loss_unfolded (old_distr : option (Distribution Act Tensor)) :
  PPO.loss kl_divergence distr actions critic_value c_entropy eps_clamp c_kl
    old_logp old_distr =
  if Req_dec_T c_kl 0 then Ok (mean base - c_entropy * mean (entropy distr))
  else match old_distr with
       | None => Raise ValueError
       | Some old_distr =>
           Ok (mean base - c_entropy * mean (entropy distr)
               + c_kl * mean (kl_divergence old_distr distr))
       end.
Proof.
  pose proof base_length as Hbase.
  unfold PPO.loss.
  rewrite broadcast2_same by congruence. simpl.
  rewrite where_same.
  2:{ unfold PPO.clamp_max. rewrite !length_map, map2_length; congruence. }
  2:{ unfold PPO.clamp_min. rewrite !length_map, map2_length; congruence. }
  simpl. rewrite broadcast2_same.
  2:{ unfold neg. rewrite !length_map, map2_length.
      - rewrite length_map. reflexivity.
      - unfold PPO.clamp_max, PPO.clamp_min.
        rewrite length_map, map2_length; rewrite !length_map; [|reflexivity].
        rewrite map2_length; congruence. }
  simpl. rewrite clipped_items by (rewrite map2_length; congruence).
  fold (clipped_objective eps_clamp (log_prob distr actions) old_logp critic_value).
  destruct (Req_dec_T c_entropy 0) as [Hce|Hce]; simpl.
  - rewrite Hce. replace (_ - 0 * _) with
      (mean (clipped_objective eps_clamp (log_prob distr actions) old_logp critic_value))
      by ring.
    destruct (Req_dec_T c_kl 0) as [Hck|Hck]; simpl; [reflexivity|].
    destruct old_distr as [od|]; [|reflexivity].
    rewrite inplace2_same by (rewrite scale_length, (Hkl Hck); exact Hbase).
    simpl. rewrite mean_plus_scale by (rewrite (Hkl Hck); exact Hbase). reflexivity.
  - rewrite inplace2_same by (rewrite scale_length, (Hentropy Hce); exact Hbase).
    simpl.
    destruct (Req_dec_T c_kl 0) as [Hck|Hck]; simpl.
    + rewrite mean_minus_scale by (rewrite (Hentropy Hce); exact Hbase). reflexivity.
    + destruct old_distr as [od|]; [|reflexivity].
      rewrite inplace2_same.
      2:{ rewrite scale_length, (Hkl Hck), map2_length;
            rewrite ?scale_length, ?(Hentropy Hce); exact Hbase. }
      simpl. rewrite mean_plus_scale.
      2:{ rewrite (Hkl Hck), map2_length; rewrite ?scale_length, ?(Hentropy Hce);
            exact Hbase. }
      rewrite mean_minus_scale by (rewrite (Hentropy Hce); exact Hbase). reflexivity.
Qed.

End PPOLoss.

Lemma mean_clipped_objective (eps_clamp : R) (logp old_logp advantage : Tensor) :
  mean (clipped_objective eps_clamp logp old_logp advantage) =
  - mean (map2 (fun log_ratio a => exp (clipped_log_ratio eps_clamp a log_ratio) * a)
            (map2 Rminus logp old_logp) advantage).
Proof.
  rewrite <- mean_neg. f_equal.
  unfold clipped_objective, neg, map2. rewrite !map_map. reflexivity.
Qed.

Lemma unclipped_at_ratio_one (eps_clamp : R) (logp advantage : Tensor) :
  0 < eps_clamp -> Forall (Rlt 0) advantage -> length logp = length advantage ->
  map2 (fun log_ratio a => exp (clipped_log_ratio eps_clamp a log_ratio) * a)
    (map2 Rminus logp logp) advantage
  = advantage.
Proof.
  intros Heps Hadv. revert logp.
  induction Hadv as [|a advantage Ha _ IH]; intros [|x logp] H; try discriminate;
    [reflexivity|].
  rewrite !map2_cons, IH by (simpl in H; lia). f_equal.
  unfold clipped_log_ratio. destruct (Rlt_dec 0 a) as [_|Hn]; [|contradiction].
  assert (Hln : 0 < ln (1 + eps_clamp)).
  { rewrite <- ln_1. apply ln_increasing; lra. }
  replace (x - x) with 0 by ring.
  rewrite Rmin_left by lra. rewrite exp_0. ring.
Qed.

(** C3: on operands of one shape, with neither entropy bonus nor KL penalty
    and for [-1 < eps_clamp < 1], where both [np.log(1 + eps_clamp)] and
    [np.log(1 - eps_clamp)] are numbers, [loss] is
    [-mean(exp(clipped_log_ratio) * advantage)], where the log-ratio
    [log_prob(actions) - old_logp] of an item is cut at [log(1 + eps_clamp)]
    from above when its advantage is positive and at [log(1 - eps_clamp)]
    from below otherwise.  When all advantages are positive, [old_logp] is
    [log_prob(actions)] and [eps_clamp > 0], the loss is [-mean(advantage)]:
    [torch.where] then selects the upper clamp for every item, whose bound
    [log(1 + eps_clamp)] is a positive number. *)
Theorem ppo_loss_clipping {Act : Type}
    (kl_divergence : Distribution Act Tensor -> Distribution Act Tensor -> Tensor)
    (distr : Distribution Act Tensor) (actions : Act) (critic_value : Tensor)
    (eps_clamp : R) (old_logp : Tensor)
    (old_distr : option (Distribution Act Tensor)) :
  length (log_prob distr actions) = length critic_value ->
  length old_logp = length critic_value ->
  critic_value <> [] ->
  (-1 < eps_clamp < 1 ->
   PPO.loss kl_divergence distr actions critic_value 0 eps_clamp 0 old_logp old_distr =
     Ok (- mean (map2 (fun log_ratio a =>
                         exp (if Rlt_dec 0 a
                              then Rmin log_ratio (ln (1 + eps_clamp))
                              else Rmax log_ratio (ln (1 - eps_clamp))) * a)
                   (map2 Rminus (log_prob distr actions) old_logp) critic_value)))
  /\ (0 < eps_clamp -> Forall (Rlt 0) critic_value ->
      old_logp = log_prob distr actions ->
      PPO.loss kl_divergence distr actions critic_value 0 eps_clamp 0 old_logp old_distr =
        Ok (- mean critic_value)).
Proof.
  intros Hlogp Hold Hne.
  assert (Hloss :
    PPO.loss kl_divergence distr actions critic_value 0 eps_clamp 0 old_logp old_distr =
    Ok (- mean (map2 (fun log_ratio a => exp (clipped_log_ratio eps_clamp a log_ratio) * a)
                  (map2 Rminus (log_prob distr actions) old_logp) critic_value))).
  { rewrite loss_unfolded by (assumption || (intros H; contradiction H; reflexivity)).
    destruct (Req_dec_T 0 0) as [_|H]; [|contradiction H; reflexivity].
    rewrite mean_clipped_objective. f_equal. ring. }
  split; [intros _; exact Hloss|].
  intros Heps Hadv Heq. rewrite Hloss. subst old_logp.
  rewrite unclipped_at_ratio_one by assumption. reflexivity.
Qed.

(** Both clips at work, with [eps_clamp = 1/2]: a log-ratio of 1 under a
    positive advantage is cut to [log(3/2)], a log-ratio of -1 under a
    negative advantage to [log(1/2)]; the loss is
    [-(3/2 * 1 + 1/2 * (-1)) / 2]. *)
Example ppo_loss_sample :
  PPO.loss kl_ex (mkDistribution (fun _ => [1; -1]) [0; 0]) tt [1; -1]
    0 (1 / 2) 0 [0; 0] None
  = Ok (- (1 / 2)).
Proof.
  rewrite loss_unfolded
    by (reflexivity || (intros H; contradiction H; reflexivity)).
  destruct (Req_dec_T 0 0) as [_|H]; [|contradiction H; reflexivity].
  apply f_equal.
  assert (He : 2 < exp 1) by (pose proof (exp_ineq1 1); lra).
  assert (Hup : ln (1 + 1 / 2) < 1).
  { apply Rlt_le_trans with (ln (exp 1)); [apply ln_increasing; lra|].
    rewrite ln_exp. lra. }
  assert (Hlow : -1 < ln (1 - 1 / 2)).
  { apply Rle_lt_trans with (ln (exp (- (1)))); [rewrite ln_exp; lra|].
    apply ln_increasing; [apply exp_pos|].
    rewrite exp_Ropp. apply (Rmult_lt_reg_l (exp 1)); [lra|].
    rewrite Rinv_r by lra. lra. }
  unfold clipped_objective, map2, clipped_log_ratio, mean. simpl.
  destruct (Rlt_dec 0 1) as [_|H]; [|lra].
  destruct (Rlt_dec 0 (-1)) as [H|_]; [lra|].
  rewrite Rmin_right, Rmax_right by lra. rewrite !exp_ln by lra. lra.
Qed.

Lemma ppo_loss_clipping_witness :
  PPO.loss kl_ex distr_ex tt [1; 3] 0 (1 / 2) 0 [0; 0] None =
    Ok (- mean (map2 (fun log_ratio a =>
                        exp (if Rlt_dec 0 a
                             then Rmin log_ratio (ln (1 + 1 / 2))
                             else Rmax log_ratio (ln (1 - 1 / 2))) * a)
                  (map2 Rminus (log_prob distr_ex tt) [0; 0]) [1; 3]))
  /\ PPO.loss kl_ex distr_ex tt [1; 3] 0 (1 / 2) 0 [0; 0] None = Ok (- mean [1; 3]).
Proof.
  destruct (ppo_loss_clipping kl_ex distr_ex tt [1; 3] (1 / 2) [0; 0] None
              eq_refl eq_refl ltac:(discriminate)) as [Hclip Hone].
  split.
  - apply Hclip. lra.
  - apply Hone.
    + lra.
    + repeat constructor; lra.
    + reflexivity.
Defined.



(** ** The mixture loss (nn.py) *)

Lemma bcast_map_ok {A B B' C : Type} (f : A -> B' -> Result C) (k : B -> B')
    (g : A -> B -> C) (a : list A) (b : list B) :
  Forall2 (fun x y => f x (k y) = Ok (g x y)) a b ->
  bcast f a (map k b) = Ok (map2 g a b).
Proof.
  intros H.
  assert (Hz : zipE f a (map k b) = Ok (map2 g a b)).
  { induction H as [|x y a b Hxy _ IH]; simpl; [reflexivity|].
    rewrite Hxy, IH. reflexivity. }
  destruct H as [|x y a b Hxy Hab]; [exact Hz|].
  destruct Hab as [|x' y' a b Hxy' Hab]; [|exact Hz].
  unfold bcast. simpl. rewrite Hxy. reflexivity.
Qed.

Lemma Normal_item (x : Tensor) (mu sigma : list Tensor) :
  Forall2 (fun m s => length m = length x /\ length s = length x) mu sigma ->
  bcast (bcast (pure2 pair)) mu sigma = Ok (map2 (map2 pair) mu sigma).
Proof.
  intros H. apply bcast_ok. eapply Forall2_impl; [|exact H].
  intros m s [Hm Hs]. apply bcast_ok.
  apply Forall2_same_length; [congruence | reflexivity].
Qed.

Lemma Normal_ok batch mus sigmas logpi :
  gmm_shapes batch mus sigmas logpi ->
  Nn.Normal mus sigmas = Ok (map2 (map2 (map2 pair)) mus sigmas).
Proof.
  intros H. unfold Nn.Normal. apply bcast_ok.
  induction H as [|x mu sigma lp batch mus sigmas logpi Hms Hlp _ IH];
    constructor; [|exact IH].
  apply (Normal_item x), Hms.
Qed.

Lemma log_prob_item (x : Tensor) (mu sigma : list Tensor) :
  Forall2 (fun m s => length m = length x /\ length s = length x) mu sigma ->
  bcast (bcast (pure2 (fun (p : R * R) v => Nn.Normal_log_prob (fst p) (snd p) v)))
    (map2 (map2 pair) mu sigma) [x]
  = Ok (map (fun c => map2 (fun (p : R * R) v => Nn.Normal_log_prob (fst p) (snd p) v) c x)
          (map2 (map2 pair) mu sigma)).
Proof.
  intros H. rewrite bcast_rows. apply mapE_ok.
  induction H as [|m s mu sigma [Hm Hs] _ IH]; [constructor|].
  rewrite map2_cons. constructor; [|exact IH].
  apply bcast_ok. apply Forall2_same_length; [|reflexivity].
  rewrite map2_length; congruence.
Qed.

Lemma log_prob_ok batch mus sigmas logpi :
  gmm_shapes batch mus sigmas logpi ->
  Nn.log_prob (map2 (map2 (map2 pair)) mus sigmas) (map (fun x => [x]) batch)
  = Ok (map2 (fun comps x =>
                map (fun c => map2 (fun (p : R * R) v =>
                                      Nn.Normal_log_prob (fst p) (snd p) v) c x) comps)
          (map2 (map2 (map2 pair)) mus sigmas) batch).
Proof.
  intros H. unfold Nn.log_prob. apply bcast_map_ok.
  induction H as [|x mu sigma lp batch mus sigmas logpi Hms Hlp _ IH];
    [constructor|].
  rewrite map2_cons. constructor; [|exact IH].
  apply log_prob_item, Hms.
Qed.

Lemma rows_ok batch mus sigmas logpi :
  gmm_shapes batch mus sigmas logpi ->
  bcast (bcast (pure2 Rplus)) logpi
    (map (map tsum)
       (map2 (fun comps x =>
                map (fun c => map2 (fun (p : R * R) v =>
                                      Nn.Normal_log_prob (fst p) (snd p) v) c x) comps)
          (map2 (map2 (map2 pair)) mus sigmas) batch))
  = Ok (rows batch mus sigmas logpi).
Proof.
  intros H.
  assert (Hsums :
    map (map tsum)
      (map2 (fun comps x =>
               map (fun c => map2 (fun (p : R * R) v =>
                                     Nn.Normal_log_prob (fst p) (snd p) v) c x) comps)
         (map2 (map2 (map2 pair)) mus sigmas) batch)
    = map2 (fun x ms => map2 (gaussian_log_likelihood x) (fst ms) (snd ms))
        batch (map2 pair mus sigmas)).
  { induction H as [|x mu sigma lp batch mus sigmas logpi Hms Hlp _ IH];
      [reflexivity|].
    rewrite !map2_cons. simpl map. rewrite IH. f_equal.
    unfold gaussian_log_likelihood, map2. rewrite !map_map. reflexivity. }
  rewrite Hsums. clear Hsums.
  rewrite (bcast_ok _ (map2 Rplus)).
  - apply f_equal.
    induction H as [|x mu sigma lp batch mus sigmas logpi Hms Hlp _ IH];
      [reflexivity|].
    rewrite !map2_cons. simpl rows. rewrite IH. reflexivity.
  - induction H as [|x mu sigma lp batch mus sigmas logpi Hms Hlp _ IH];
      [constructor|].
    rewrite !map2_cons. constructor; [|exact IH].
    apply bcast_ok. apply Forall2_same_length; [|reflexivity].
    simpl. rewrite map2_length; [exact Hlp|]. eapply Forall2_length, Hms.
Qed.

Lemma map2_maps {A B C D : Type} (h : B -> C -> D) (f : A -> B) (g : A -> C) (l : list A) :
  map2 h (map f l) (map g l) = map (fun x => h (f x) (g x)) l.
Proof.
  unfold map2. induction l as [|x l IH]; simpl; [reflexivity|].
  rewrite IH. reflexivity.
Qed.

Lemma map2_map_diag {A C D : Type} (h : A -> C -> D) (g : A -> C) (l : list A) :
  map2 h l (map g l) = map (fun x => h x (g x)) l.
Proof.
  rewrite <- (map_id l) at 1. apply map2_maps.
Qed.

Lemma mapE_map {A B C : Type} (f : B -> Result C) (g : A -> B) (l : list A) :
  mapE f (map g l) = mapE (fun x => f (g x)) l.
Proof.
  induction l as [|x l IH]; simpl; [reflexivity|]. rewrite IH. reflexivity.
Qed.

Lemma rows_length batch mus sigmas logpi :
  gmm_shapes batch mus sigmas logpi ->
  Forall2 (fun row lp => length row = length lp) (rows batch mus sigmas logpi) logpi.
Proof.
  induction 1 as [|x mu sigma lp batch mus sigmas logpi Hms Hlp _ IH];
    simpl; constructor; [|exact IH].
  unfold item_log_probs. rewrite map2_length; [reflexivity|].
  rewrite map2_length; [exact Hlp|]. eapply Forall2_length, Hms.
Qed.

Lemma rows_at_least (n : nat) batch mus sigmas logpi :
  gmm_shapes batch mus sigmas logpi ->
  Forall (fun lp => (n <= length lp)%nat) logpi ->
  Forall (fun row => (n <= length row)%nat) (rows batch mus sigmas logpi).
Proof.
  intros H Hn. apply rows_length in H.
  induction H as [|row lp L logpi Hrow _ IH]; [constructor|].
  inversion Hn; subst. constructor; [lia | auto].
Qed.

Lemma max_log_probs_ok (L : list Tensor) :
  Forall (fun row => (1 <= length row)%nat) L ->
  mapE Nn.row_max L = Ok (map Rmax_list L).
Proof.
  intros H. apply mapE_ok. eapply Forall_impl; [|exact H].
  intros [|x row] Hrow; [simpl in Hrow; lia | reflexivity].
Qed.

Lemma g_probs_rows (L : list Tensor) :
  map (map exp)
    (map2 (fun row m => map (fun l => l - m) row) L (map Rmax_list L))
  = map shifted_probs L.
Proof.
  rewrite map2_map_diag, map_map. reflexivity.
Qed.

Lemma correct_ok (correction_factor : R) (L : list Tensor) :
  Forall (fun row => (2 <= length row)%nat) L ->
  Nn.correct (Some correction_factor) (map shifted_probs L) =
    Ok (map (fun row =>
               let g0 := exp (nth 0 row 0 - Rmax_list row) in
               let g1 := exp (nth 1 row 0 - Rmax_list row) in
               let mask := if Req_dec_T g0 1 then 1 else 0 in
               [mask * g0 * correction_factor + (1 - mask) * g0; g1]) L).
Proof.
  intros H. unfold Nn.correct.
  rewrite mapE_map, (mapE_ok _ (fun row => exp (nth 0 row 0 - Rmax_list row))).
  2:{ eapply Forall_impl; [|exact H].
      intros [|l0 [|l1 row]] Hrow; simpl in Hrow; try lia. reflexivity. }
  simpl.
  rewrite mapE_map, (mapE_ok _ (fun row => exp (nth 1 row 0 - Rmax_list row))).
  2:{ eapply Forall_impl; [|exact H].
      intros [|l0 [|l1 row]] Hrow; simpl in Hrow; try lia. reflexivity. }
  simpl. apply f_equal.
  rewrite map_map, map2_maps, map2_maps. reflexivity.
Qed.

Lemma bind_Ok {A B : Type} (a : A) (k : A -> Result B) : bind (Ok a) k = k a.
Proof. reflexivity. Qed.

Ltac bind_step := rewrite bind_Ok; cbv beta zeta.

Lemma gmm_loss_plain batch mus sigmas logpi (reduce : bool) :
  gmm_shapes batch mus sigmas logpi ->
  Forall (fun lp => (1 <= length lp)%nat) logpi ->
  Nn.gmm_loss batch mus sigmas logpi None reduce =
    Ok (finish reduce (map shifted_logsumexp (rows batch mus sigmas logpi))).
Proof.
  intros H Hgs. unfold Nn.gmm_loss.
  rewrite (Normal_ok _ _ _ _ H). simpl.
  rewrite (log_prob_ok _ _ _ _ H). simpl.
  rewrite (rows_ok _ _ _ _ H). simpl.
  rewrite (max_log_probs_ok _ (rows_at_least 1 _ _ _ _ H Hgs)). simpl.
  rewrite g_probs_rows, !map_map, map2_maps.
  destruct reduce; reflexivity.
Qed.

Lemma gmm_loss_corrected batch mus sigmas logpi (correction_factor : R) (reduce : bool) :
  gmm_shapes batch mus sigmas logpi ->
  Forall (fun lp => (2 <= length lp)%nat) logpi ->
  Nn.gmm_loss batch mus sigmas logpi (Some correction_factor) reduce =
    Ok (finish reduce
          (map (corrected_log_prob correction_factor) (rows batch mus sigmas logpi))).
Proof.
  intros H Hgs. unfold Nn.gmm_loss. cbv zeta.
  rewrite (Normal_ok _ _ _ _ H). bind_step.
  rewrite (log_prob_ok _ _ _ _ H). bind_step.
  rewrite (rows_ok _ _ _ _ H). bind_step.
  assert (H1 : Forall (fun lp => (1 <= length lp)%nat) logpi).
  { eapply Forall_impl; [|exact Hgs]. intros lp Hlp. simpl in Hlp. lia. }
  rewrite (max_log_probs_ok _ (rows_at_least 1 _ _ _ _ H H1)). bind_step.
  rewrite g_probs_rows.
  rewrite (correct_ok _ _ (rows_at_least 2 _ _ _ _ H Hgs)). bind_step.
  rewrite !map_map, map2_maps.
  assert (Hrows :
    map (fun x => Rmax_list x +
           ln (tsum [(if Req_dec_T (exp (nth 0 x 0 - Rmax_list x)) 1 then 1 else 0)
                       * exp (nth 0 x 0 - Rmax_list x) * correction_factor
                     + (1 - (if Req_dec_T (exp (nth 0 x 0 - Rmax_list x)) 1 then 1 else 0))
                       * exp (nth 0 x 0 - Rmax_list x);
                     exp (nth 1 x 0 - Rmax_list x)]))
      (rows batch mus sigmas logpi)
    = map (corrected_log_prob correction_factor) (rows batch mus sigmas logpi)).
  { apply map_ext. intros row. unfold corrected_log_prob. simpl.
    rewrite Rplus_0_r. reflexivity. }
  cbv zeta. rewrite Hrows. destruct reduce; reflexivity.
Qed.

Lemma tsum_exp_pos (row : Tensor) : row <> [] -> 0 < tsum (map exp row).
Proof.
  intros H. destruct row as [|x row]; [contradiction H; reflexivity|]. clear H.
  revert x. induction row as [|y row IH]; intros x; simpl.
  - pose proof (exp_pos x). lra.
  - pose proof (exp_pos x). specialize (IH y). simpl in IH. lra.
Qed.

Lemma tsum_exp_shift (m : R) (row : Tensor) :
  tsum (map exp (map (fun l => l - m) row)) = exp (- m) * tsum (map exp row).
Proof.
  induction row as [|x row IH]; simpl; [ring|].
  rewrite IH. unfold Rminus. rewrite exp_plus. ring.
Qed.

(** Subtracting any shift before the exponential and adding it back after the
    logarithm is the plain log-sum-exp. *)
Lemma shifted_logsumexp_unshifted (row : Tensor) :
  row <> [] -> shifted_logsumexp row = ln (tsum (map exp row)).
Proof.
  intros H. unfold shifted_logsumexp, shifted_probs.
  rewrite tsum_exp_shift, ln_mult, ln_exp by (apply exp_pos || apply tsum_exp_pos, H).
  ring.
Qed.

Lemma gmm_loss_unshifted batch mus sigmas logpi (reduce : bool) :
  gmm_shapes batch mus sigmas logpi ->
  Forall (fun lp => (1 <= length lp)%nat) logpi ->
  Nn.gmm_loss batch mus sigmas logpi None reduce =
    Ok (finish reduce
          (map (fun row => ln (tsum (map exp row))) (rows batch mus sigmas logpi))).
Proof.
  intros H Hgs. rewrite gmm_loss_plain by assumption. do 2 f_equal.
  apply map_ext_in. intros row Hrow. apply shifted_logsumexp_unshifted.
  pose proof (rows_at_least 1 _ _ _ _ H Hgs) as Hrows.
  rewrite Forall_forall in Hrows. specialize (Hrows row Hrow).
  destruct row; [simpl in Hrows; lia | discriminate].
Qed.

Lemma single_shapes (batch means devs : list Tensor) :
  Forall2 (fun x m => length m = length x) batch means ->
  Forall2 (fun x s => length s = length x) batch devs ->
  gmm_shapes batch (single means) (single devs) (zero_logpi batch).
Proof.
  intros Hm. revert devs.
  induction Hm as [|x m batch means Hxm _ IH]; intros devs Hs;
    inversion Hs as [|x' s batch' devs' Hxs Hs']; subst; simpl.
  - constructor.
  - constructor; [repeat constructor; assumption | reflexivity | apply IH, Hs'].
Qed.

Lemma single_rows (batch means devs : list Tensor) :
  Forall2 (fun x m => length m = length x) batch means ->
  Forall2 (fun x s => length s = length x) batch devs ->
  rows batch (single means) (single devs) (zero_logpi batch) =
    map2 (fun x ms => [0 + gaussian_log_likelihood x (fst ms) (snd ms)])
      batch (combine means devs).
Proof.
  intros Hm. revert devs.
  induction Hm as [|x m batch means Hxm _ IH]; intros devs Hs;
    inversion Hs as [|x' s batch' devs' Hxs Hs']; subst; [reflexivity|].
  simpl rows. simpl combine. rewrite map2_cons, (IH _ Hs'). reflexivity.
Qed.

Lemma shifted_logsumexp_single (v : R) : shifted_logsumexp [v] = v.
Proof.
  unfold shifted_logsumexp, shifted_probs. simpl.
  replace (v - v) with 0 by ring. rewrite exp_0, Rplus_0_r, ln_1. ring.
Qed.

(** C7: with a single mixture component per item, [logpi = 0] and no
    correction factor, [gmm_loss] returns the negative Gaussian
    log-likelihood of the batch items, summed over the features (its mean
    over the batch when [reduce] is set); the subtraction of the maximum
    leaves the result as it is: it is the log-sum-exp computed without a
    shift. *)
Theorem gmm_loss_single_component (batch means devs : list Tensor) (reduce : bool) :
  Forall2 (fun x m => length m = length x) batch means ->
  Forall2 (fun x s => length s = length x) batch devs ->
  batch <> [] ->
  Nn.gmm_loss batch (single means) (single devs) (zero_logpi batch) None reduce =
    Ok (let log_likelihood :=
          map2 (fun x ms => gaussian_log_likelihood x (fst ms) (snd ms))
            batch (combine means devs) in
        if reduce then Nn.Scalar (- mean log_likelihood)
        else Nn.Vector (map Ropp log_likelihood))
  /\ Nn.gmm_loss batch (single means) (single devs) (zero_logpi batch) None reduce =
    Ok (let unshifted :=
          map (fun row => ln (tsum (map exp row)))
            (rows batch (single means) (single devs) (zero_logpi batch)) in
        if reduce then Nn.Scalar (- mean unshifted)
        else Nn.Vector (map Ropp unshifted)).
Proof.
  intros Hm Hs Hne.
  assert (Hgs : Forall (fun lp => (1 <= length lp)%nat) (zero_logpi batch)).
  { unfold zero_logpi. apply Forall_forall. intros lp Hlp.
    apply in_map_iff in Hlp. destruct Hlp as (x & <- & _). simpl. lia. }
  split.
  - rewrite gmm_loss_plain by (apply single_shapes || exact Hgs; assumption).
    rewrite single_rows by assumption.
    unfold map2 at 1. rewrite map_map.
    replace (map (fun x => shifted_logsumexp [0 + gaussian_log_likelihood (fst x) (fst (snd x)) (snd (snd x))])
               (combine batch (combine means devs)))
      with (map2 (fun x ms => gaussian_log_likelihood x (fst ms) (snd ms))
              batch (combine means devs)).
    + reflexivity.
    + unfold map2. apply map_ext. intros [x [m s]]. simpl.
      rewrite shifted_logsumexp_single. ring.
  - apply gmm_loss_unshifted; [apply single_shapes; assumption | exact Hgs].
Qed.

Lemma gmm_loss_single_component_witness :
  Nn.gmm_loss [[1; 2]; [0; 3]] (single [[0; 2]; [1; 1]]) (single [[1; 1]; [2; 2]])
    (zero_logpi [[1; 2]; [0; 3]]) None false =
    Ok (Nn.Vector
          (map Ropp
             (map2 (fun x ms => gaussian_log_likelihood x (fst ms) (snd ms))
                [[1; 2]; [0; 3]] (combine [[0; 2]; [1; 1]] [[1; 1]; [2; 2]])))).
Proof.
  apply (proj1 (gmm_loss_single_component [[1; 2]; [0; 3]] [[0; 2]; [1; 1]]
                  [[1; 1]; [2; 2]] false
                  ltac:(repeat constructor) ltac:(repeat constructor)
                  ltac:(discriminate))).
Defined.

Lemma Forall2_maps {A B C : Type} (P : B -> C -> Prop) (f : A -> B) (g : A -> C)
    (l : list A) :
  Forall (fun x => P (f x) (g x)) l -> Forall2 P (map f l) (map g l).
Proof.
  induction 1; simpl; constructor; assumption.
Qed.

Lemma corrected_neutral (row : Tensor) :
  corrected_log_prob 1 row =
    Rmax_list row
    + ln (exp (nth 0 row 0 - Rmax_list row) + exp (nth 1 row 0 - Rmax_list row)).
Proof.
  unfold corrected_log_prob. cbv zeta.
  destruct (Req_dec_T (exp (nth 0 row 0 - Rmax_list row)) 1); do 2 f_equal; ring.
Qed.

Lemma corrected_drops_components (row : Tensor) :
  (2 < length row)%nat -> corrected_log_prob 1 row < shifted_logsumexp row.
Proof.
  intros H. rewrite corrected_neutral. unfold shifted_logsumexp, shifted_probs.
  destruct row as [|l0 [|l1 [|l2 row]]]; simpl in H; try lia.
  set (m := Rmax_list (l0 :: l1 :: l2 :: row)).
  apply Rplus_lt_compat_l. apply ln_increasing.
  - pose proof (exp_pos (l0 - m)). pose proof (exp_pos (l1 - m)). simpl. lra.
  - simpl.
    assert (Hrest : 0 < tsum (map exp (map (fun l => l - m) (l2 :: row)))).
    { apply tsum_exp_pos. discriminate. }
    simpl in Hrest. lra.
Qed.

Lemma corrected_two_components (row : Tensor) :
  length row = 2%nat -> corrected_log_prob 1 row = shifted_logsumexp row.
Proof.
  intros H. rewrite corrected_neutral. unfold shifted_logsumexp, shifted_probs.
  destruct row as [|l0 [|l1 [|l2 row]]]; simpl in H; try lia.
  simpl. rewrite Rplus_0_r. reflexivity.
Qed.

Lemma rows_exactly (n : nat) batch mus sigmas logpi :
  gmm_shapes batch mus sigmas logpi ->
  Forall (fun lp => length lp = n) logpi ->
  Forall (fun row => length row = n) (rows batch mus sigmas logpi).
Proof.
  intros H Hn. apply rows_length in H.
  induction H as [|row lp L logpi Hrow _ IH]; [constructor|].
  inversion Hn; subst. constructor; [assumption | auto].
Qed.



(** With a correction factor, a mixture of a single component has no
    component 1 to index. *)
Example gmm_loss_correction_single_component :
  Nn.gmm_loss [[0]] [[[0]]] [[[1]]] [[0]] (Some 2) true = Raise IndexError.
Proof. reflexivity. Qed.

(** ** The A2C actors (a2cactor.py) *)

Lemma mean_affine (a c : R) (l : Tensor) :
  l <> [] -> mean (map (fun e => a - c * e) l) = a - c * mean l.
Proof.
  intros H. unfold mean. rewrite length_map.
  assert (Hn : INR (length l) <> 0).
  { apply not_0_INR. destruct l; [contradiction H; reflexivity | discriminate]. }
  assert (Hsum : tsum (map (fun e => a - c * e) l) = INR (length l) * a - c * tsum l).
  { clear H Hn. induction l as [|x l IH]; [simpl; ring|].
    change (tsum (map (fun e => a - c * e) (x :: l)))
      with (a - c * x + tsum (map (fun e => a - c * e) l)).
    simpl length. rewrite IH, S_INR. simpl tsum. ring. }
  rewrite Hsum. field. exact Hn.
Qed.

Lemma mean_mult_neg (a b : Tensor) :
  mean (map2 Rmult (neg a) b) = - mean (map2 Rmult a b).
Proof.
  rewrite <- mean_neg. f_equal. unfold neg, map2. revert b.
  induction a as [|x a IH]; intros [|y b]; simpl; try reflexivity.
  rewrite IH. f_equal. ring.
Qed.

Section ActorContinuous.

Context {ObsAt ActAt Param : Type}.

Variable Normal : Param -> Param -> Distribution (list (list ActAt)) (list Tensor).
Variable self : @A2CActorContinuous.t (list (list ObsAt)) Param.
Variable traj : BatchTraj.t ObsAt ActAt.
Variable critic_value : Graph Tensor.
Variable current params : list Tensor.

Local Abbreviation distr := (A2CActorContinuous.distr Normal self traj params).

Hypothesis Hlogp :
  length (log_prob distr (BatchTraj.actions traj)) = length (critic_value current).
Hypothesis Hentropy : entropy distr <> [].

Lemma continuous_loss :
  A2CActorContinuous.loss Normal self traj critic_value current params =
    Ok (- mean (map2 Rmult (map tsum (log_prob distr (BatchTraj.actions traj)))
                  (critic_value current))
        - A2CActorContinuous._c_entropy self * mean (map tsum (entropy distr))).
Proof.
  unfold A2CActorContinuous.loss, A2CActorContinuous.loss_critic, detach.
  rewrite broadcast2_same by (unfold neg; rewrite !length_map; exact Hlogp).
  simpl. rewrite mean_affine, mean_mult_neg; [reflexivity|].
  intros H. apply Hentropy. destruct (entropy distr); [reflexivity | discriminate].
Qed.

End ActorContinuous.

Section ActorDiscrete.

Context {ObsAt ActAt Param : Type}.

Variable Categorical : Param -> Distribution (list (list ActAt)) Tensor.
Variable self : @A2CActorDiscrete.t (list (list ObsAt)) Param.
Variable traj : BatchTraj.t ObsAt ActAt.
Variable critic_value : Graph Tensor.
Variable current params : list Tensor.

Local Abbreviation distr := (A2CActorDiscrete.distr Categorical self traj params).

Hypothesis Hlogp :
  length (log_prob distr (BatchTraj.actions traj)) = length (critic_value current).
Hypothesis Hentropy : length (entropy distr) = length (critic_value current).

Lemma discrete_loss :
  A2CActorDiscrete.loss Categorical self traj critic_value current params =
    Ok (- mean (map2 Rmult (log_prob distr (BatchTraj.actions traj))
                  (critic_value current))
        - A2CActorDiscrete._c_entropy self * mean (entropy distr)).
Proof.
  unfold A2CActorDiscrete.loss, detach.
  rewrite broadcast2_same by (unfold neg; rewrite length_map; exact Hlogp).
  simpl. rewrite broadcast2_same.
  2:{ rewrite scale_length, map2_length; unfold neg; rewrite length_map; congruence. }
  simpl. rewrite mean_minus_scale, mean_mult_neg; [reflexivity|].
  rewrite map2_length; unfold neg; rewrite length_map; congruence.
Qed.

End ActorDiscrete.



(** ** The critic's optimisation step (a2cvalue.py) *)

(** [A2CValueCritic.optimize] never touches the target network: no path of it
    calls [soft_update]. *)
Lemma critic_optimize_keeps_target {Act : Type} (self : A2CValueCritic.t)
    (traj : @A2CValueCritic.BatchTraj Act) :
  A2CValue._target_v_function
    (A2CValueCritic._a2cvalue (fst (A2CValueCritic.optimize self traj)))
  = A2CValue._target_v_function (A2CValueCritic._a2cvalue self).
Proof.
  unfold A2CValueCritic.optimize.
  destruct (A2CValueCritic.critic self traj true) as [critic|e]; [|reflexivity].
  destruct (A2CValueCritic.first_step (BatchTraj.obs traj)) as [obs0|e];
    [|reflexivity].
  destruct (A2CValueCritic.loss self obs0 critic _); reflexivity.
Qed.

(** The sibling [A2CValue.optimize] does: after the step, its target is the
    soft update of the old target towards the stepped live network. *)
Lemma value_optimize_soft_updates (self : A2CValue.t) (obs : list Tensor)
    (expected_v : Graph Tensor) (loss : Tensor) :
  A2CValue.v_loss self obs expected_v (parameters (A2CValue._v_function self)) = Ok loss ->
  A2CValue._target_v_function (fst (A2CValue.optimize self obs expected_v))
  = fst (Nn.soft_update
           (A2CValue._v_function (fst (A2CValue.optimize self obs expected_v)))
           (A2CValue._target_v_function self) (A2CValue._tau self)).
Proof.
  intros H. unfold A2CValue.optimize. rewrite H.
  destruct (Nn.soft_update _ _ _) as [target e] eqn:Hsoft. simpl.
  rewrite Hsoft. reflexivity.
Qed.

(** C2 fails on the code: on the batch [traj_ex [0; 1]], with live weight 2,
    target weight 0 and [tau = 1/2], [A2CValueCritic.optimize] returns a
    loss and leaves the target weight at 0, where a soft update after the
    step sets it to 1. *)
Lemma critic_optimize_skips_soft_update :
  (exists loss : R,
     snd (A2CValueCritic.optimize critic_ex (traj_ex [0; 1])) = Ok loss)
  /\ parameters
       (A2CValue._target_v_function
          (A2CValueCritic._a2cvalue
             (fst (A2CValueCritic.optimize critic_ex (traj_ex [0; 1])))))
     = [[0]]
  /\ parameters
       (fst (Nn.soft_update
               (A2CValue._v_function
                  (A2CValueCritic._a2cvalue
                     (fst (A2CValueCritic.optimize critic_ex (traj_ex [0; 1])))))
               (linear_value 0) (1 / 2)))
     = [[1]].
Proof.
  split; [|split].
  - eexists. reflexivity.
  - rewrite critic_optimize_keeps_target. reflexivity.
  - change (parameters (fst (Nn.soft_update (linear_value 2) (linear_value 0) (1 / 2)))
            = [[1]]).
    rewrite soft_update_zip by (repeat constructor).
    unfold blend, map2. simpl. do 2 f_equal. lra.
Qed.

(** * Further properties *)

(** ** Synchronisation of a target network, continued *)

Lemma synced_cons (t s : Tensor) (targets srcs : list Tensor) :
  synced (t :: targets) (s :: srcs) = s :: synced targets srcs.
Proof. reflexivity. Qed.

Lemma synced_nil_r (targets : list Tensor) : synced targets [] = targets.
Proof. unfold synced. simpl. rewrite firstn_nil. reflexivity. Qed.

Lemma synced_same_length (targets srcs : list Tensor) :
  length targets = length srcs -> synced targets srcs = srcs.
Proof.
  intros H. unfold synced.
  rewrite H, firstn_all, <- H, skipn_all, app_nil_r. reflexivity.
Qed.

Lemma synced_paired (targets srcs : list Tensor) :
  paired_shapes (synced targets srcs) srcs.
Proof.
  unfold paired_shapes. revert srcs.
  induction targets as [|t targets IH]; intros [|s srcs].
  - constructor.
  - unfold synced. simpl. destruct (length srcs); constructor.
  - rewrite synced_nil_r. simpl. constructor.
  - rewrite synced_cons. simpl. constructor; [reflexivity | apply IH].
Qed.

Lemma synced_idempotent (targets srcs : list Tensor) :
  synced (synced targets srcs) srcs = synced targets srcs.
Proof.
  revert srcs. induction targets as [|t targets IH]; intros [|s srcs];
    try reflexivity.
  rewrite !synced_cons, IH. reflexivity.
Qed.

Lemma hard_update_synced {In Out : Type} (net target_net : ParametricFunction In Out) :
  paired_shapes (parameters target_net) (parameters net) ->
  paired_shapes (buffers target_net) (buffers net) ->
  Nn.hard_update net target_net =
    (mkNet (forward target_net)
       (synced (parameters target_net) (parameters net))
       (synced (buffers target_net) (buffers net)),
     None).
Proof. apply hard_update_zip. Qed.

(** X1: between two networks of matching topology, [hard_update] raises
    nothing and leaves the target with exactly the parameters and buffers of
    the live network; when both have the same architecture, the target then
    computes what the live network computes. *)
Theorem hard_update_copies {In Out : Type} (net target_net : ParametricFunction In Out) :
  same_topology (parameters target_net) (parameters net) ->
  same_topology (buffers target_net) (buffers net) ->
  Nn.hard_update net target_net =
    (mkNet (forward target_net) (parameters net) (buffers net), None)
  /\ (forward target_net = forward net ->
      forall inputs, call (fst (Nn.hard_update net target_net)) inputs = call net inputs).
Proof.
  intros Hp Hb.
  assert (H : Nn.hard_update net target_net =
              (mkNet (forward target_net) (parameters net) (buffers net), None)).
  { rewrite hard_update_synced by (apply same_topology_paired; assumption).
    rewrite !synced_same_length by (apply same_topology_length; assumption).
    reflexivity. }
  split; [exact H|].
  intros Hf inputs. rewrite H. unfold call. simpl. rewrite Hf. reflexivity.
Qed.

Lemma hard_update_copies_witness :
  Nn.hard_update live_pair target_pair = (net_of [[1; 2]; [3]] [[7]], None).
Proof.
  apply (proj1 (hard_update_copies live_pair target_pair
                  ltac:(repeat constructor) ltac:(repeat constructor))).
Defined.

(** X2: a second [hard_update] from the same live network changes nothing,
    also when the two networks have different numbers of tensors. *)
Theorem hard_update_idempotent {In Out : Type} (net target_net : ParametricFunction In Out) :
  paired_shapes (parameters target_net) (parameters net) ->
  paired_shapes (buffers target_net) (buffers net) ->
  Nn.hard_update net (fst (Nn.hard_update net target_net)) =
    (fst (Nn.hard_update net target_net), None).
Proof.
  intros Hp Hb. rewrite (hard_update_synced net target_net Hp Hb). simpl.
  rewrite hard_update_synced by apply synced_paired. simpl.
  rewrite !synced_idempotent. reflexivity.
Qed.

Lemma hard_update_idempotent_witness :
  Nn.hard_update live_small (fst (Nn.hard_update live_small target_large)) =
    (fst (Nn.hard_update live_small target_large), None).
Proof.
  apply (hard_update_idempotent live_small target_large); repeat constructor.
Defined.

Lemma blend_one (target_param param : Tensor) :
  length target_param = length param -> blend 1 target_param param = target_param.
Proof.
  unfold blend. revert param.
  induction target_param as [|t target_param IH]; intros [|p param] H;
    try discriminate; [reflexivity|].
  rewrite map2_cons, IH by (simpl in H; lia). f_equal. ring.
Qed.

Lemma blend_zero (target_param param : Tensor) :
  length target_param = length param -> blend 0 target_param param = param.
Proof.
  unfold blend. revert param.
  induction target_param as [|t target_param IH]; intros [|p param] H;
    try discriminate; [reflexivity|].
  rewrite map2_cons, IH by (simpl in H; lia). f_equal. ring.
Qed.

Lemma map2_blend_one (targets srcs : list Tensor) :
  paired_shapes targets srcs ->
  map2 (blend 1) targets srcs ++ skipn (length srcs) targets = targets.
Proof.
  unfold paired_shapes. revert srcs.
  induction targets as [|t targets IH]; intros [|s srcs] H; try reflexivity.
  simpl in H. inversion H as [|p l Hp Hl]; subst. simpl in Hp.
  rewrite map2_cons. simpl. rewrite blend_one, IH by assumption. reflexivity.
Qed.

Lemma map2_blend_zero (targets srcs : list Tensor) :
  paired_shapes targets srcs ->
  map2 (blend 0) targets srcs ++ skipn (length srcs) targets = synced targets srcs.
Proof.
  unfold paired_shapes. revert srcs.
  induction targets as [|t targets IH]; intros [|s srcs] H; try reflexivity.
  simpl in H. inversion H as [|p l Hp Hl]; subst. simpl in Hp.
  rewrite map2_cons, synced_cons. simpl.
  rewrite blend_zero, IH by assumption. reflexivity.
Qed.

(** X3: with [tau = 1], [soft_update] leaves every parameter of the target
    as it is; the buffers are overwritten all the same. *)
Theorem soft_update_tau_one {In Out : Type} (net target_net : ParametricFunction In Out) :
  paired_shapes (parameters target_net) (parameters net) ->
  paired_shapes (buffers target_net) (buffers net) ->
  Nn.soft_update net target_net 1 =
    (mkNet (forward target_net) (parameters target_net)
       (synced (buffers target_net) (buffers net)),
     None).
Proof.
  intros Hp Hb. rewrite soft_update_zip by assumption.
  rewrite map2_blend_one by assumption. reflexivity.
Qed.

Lemma soft_update_tau_one_witness :
  Nn.soft_update live_small target_large 1 = (net_of [[0]; [5]] [[7]], None).
Proof.
  apply (soft_update_tau_one live_small target_large); repeat constructor.
Defined.

(** X4: with [tau = 0], [soft_update] is [hard_update]. *)
Theorem soft_update_tau_zero {In Out : Type} (net target_net : ParametricFunction In Out) :
  paired_shapes (parameters target_net) (parameters net) ->
  paired_shapes (buffers target_net) (buffers net) ->
  Nn.soft_update net target_net 0 = Nn.hard_update net target_net.
Proof.
  intros Hp Hb. rewrite soft_update_zip, hard_update_synced by assumption.
  rewrite map2_blend_zero by assumption. reflexivity.
Qed.

Lemma soft_update_tau_zero_witness :
  Nn.soft_update live_small target_large 0 = Nn.hard_update live_small target_large.
Proof.
  apply (soft_update_tau_zero live_small target_large); repeat constructor.
Defined.

Lemma soft_update_same_topology {In Out : Type}
    (net target_net : ParametricFunction In Out) (tau : R) :
  same_topology (parameters target_net) (parameters net) ->
  paired_shapes (buffers target_net) (buffers net) ->
  Nn.soft_update net target_net tau =
    (mkNet (forward target_net)
       (map2 (blend tau) (parameters target_net) (parameters net))
       (synced (buffers target_net) (buffers net)),
     None).
Proof.
  intros Hp Hb. rewrite soft_update_zip
    by first [assumption | apply same_topology_paired; assumption].
  rewrite <- (same_topology_length _ _ Hp), skipn_all, app_nil_r. reflexivity.
Qed.

Lemma same_topology_nth (targets srcs : list Tensor) (i : nat) :
  same_topology targets srcs ->
  length (nth i targets []) = length (nth i srcs []).
Proof.
  intros H. revert i. induction H as [|t s targets srcs Hts _ IH]; intros [|i];
    simpl; auto.
Qed.

(** X5: for [0 <= tau <= 1], every parameter entry that [soft_update] writes
    lies between the old target entry and the live entry. *)
Theorem soft_update_between {In Out : Type}
    (net target_net : ParametricFunction In Out) (tau : R) (i j : nat) :
  same_topology (parameters target_net) (parameters net) ->
  paired_shapes (buffers target_net) (buffers net) ->
  0 <= tau <= 1 ->
  (i < length (parameters target_net))%nat ->
  (j < length (nth i (parameters target_net) []))%nat ->
  Rmin (nth j (nth i (parameters target_net) []) 0) (nth j (nth i (parameters net) []) 0)
  <= nth j (nth i (parameters (fst (Nn.soft_update net target_net tau))) []) 0
  <= Rmax (nth j (nth i (parameters target_net) []) 0) (nth j (nth i (parameters net) []) 0).
Proof.
  intros Hp Hb Htau Hi Hj.
  rewrite soft_update_same_topology by assumption. cbn [fst parameters].
  rewrite (nth_map2 (blend tau) (parameters target_net) (parameters net) i [] [] [])
    by first [assumption | apply same_topology_length; assumption].
  unfold blend.
  rewrite (nth_map2 _ (nth i (parameters target_net) []) (nth i (parameters net) [])
             j 0 0 0)
    by first [assumption | apply same_topology_nth; assumption].
  set (t := nth j (nth i (parameters target_net) []) 0).
  set (p := nth j (nth i (parameters net) []) 0).
  unfold Rmin, Rmax. destruct (Rle_dec t p); nra.
Qed.

Lemma soft_update_between_witness :
  Rmin 4 2
  <= nth 1 (nth 0 (parameters (fst (Nn.soft_update live_pair target_pair (1 / 4)))) []) 0
  <= Rmax 4 2.
Proof.
  apply (soft_update_between live_pair target_pair (1 / 4) 0 1);
    try (repeat constructor); try lra.
Defined.

Lemma map2_map2_l {A B C D : Type} (g : C -> B -> D) (f : A -> B -> C)
    (a : list A) (b : list B) :
  map2 g (map2 f a b) b = map2 (fun x y => g (f x y) y) a b.
Proof.
  revert b. induction a as [|x a IH]; intros [|y b]; try reflexivity.
  rewrite !map2_cons, IH. reflexivity.
Qed.

Lemma map2_ext {A B C : Type} (f g : A -> B -> C) (a : list A) (b : list B) :
  (forall x y, f x y = g x y) -> map2 f a b = map2 g a b.
Proof.
  intros H. unfold map2. apply map_ext. intros [x y]. apply H.
Qed.

Lemma map2_fst_same {A B : Type} (f : A -> B -> A) (a : list A) (b : list B) :
  length a = length b -> (forall x y, f x y = x) -> map2 f a b = a.
Proof.
  intros Hlen H. revert b Hlen. induction a as [|x a IH]; intros [|y b] Hlen;
    try discriminate; [reflexivity|].
  rewrite map2_cons, H, IH by (simpl in Hlen; lia). reflexivity.
Qed.

Lemma map2_topology (f : R -> R -> R) (targets srcs : list Tensor) :
  same_topology targets srcs -> same_topology (map2 (map2 f) targets srcs) srcs.
Proof.
  induction 1 as [|t s targets srcs Hts _ IH]; [constructor|].
  rewrite map2_cons. constructor; [|exact IH].
  rewrite map2_length; assumption.
Qed.

Lemma soft_updates_state {In Out : Type} (n : nat)
    (net target_net : ParametricFunction In Out) (tau : R) :
  same_topology (parameters target_net) (parameters net) ->
  paired_shapes (buffers target_net) (buffers net) ->
  parameters (soft_updates n net target_net tau) =
    map2 (map2 (fun t p => p + tau ^ n * (t - p))) (parameters target_net) (parameters net)
  /\ paired_shapes (buffers (soft_updates n net target_net tau)) (buffers net).
Proof.
  intros Hp Hb. induction n as [|n [IHp IHb]].
  - split; [|exact Hb]. simpl. symmetry.
    induction Hp as [|t s targets srcs Hts _ IH]; [reflexivity|].
    rewrite map2_cons, IH. f_equal.
    apply map2_fst_same; [exact Hts | intros x y; simpl; ring].
  - unfold soft_updates in *. simpl Nat.iter.
    rewrite soft_update_same_topology.
    + cbn [fst parameters buffers]. split; [|apply synced_paired].
      rewrite IHp, map2_map2_l. apply map2_ext. intros t p.
      unfold blend. rewrite map2_map2_l. apply map2_ext. intros x y. simpl. ring.
    + rewrite IHp. apply map2_topology, Hp.
    + exact IHb.
Qed.

(** X6: [n] soft updates towards one live network of matching topology leave
    every target parameter entry at [live + tau^n * (target - live)]: the gap
    to the live network shrinks by the factor [tau] at each update. *)
Theorem soft_updates_geometric {In Out : Type} (n : nat)
    (net target_net : ParametricFunction In Out) (tau : R) :
  same_topology (parameters target_net) (parameters net) ->
  paired_shapes (buffers target_net) (buffers net) ->
  parameters (soft_updates n net target_net tau) =
    map2 (map2 (fun target_param param => param + tau ^ n * (target_param - param)))
      (parameters target_net) (parameters net).
Proof.
  intros Hp Hb. apply soft_updates_state; assumption.
Qed.

Lemma soft_updates_geometric_witness :
  parameters (soft_updates 3 live_pair target_pair (1 / 2)) =
    map2 (map2 (fun target_param param => param + (1 / 2) ^ 3 * (target_param - param)))
      [[0; 4]; [1]] [[1; 2]; [3]].
Proof.
  apply (soft_updates_geometric 3 live_pair target_pair (1 / 2)); repeat constructor.
Defined.

(** ** Shapes that torch refuses *)

Lemma zipE_pure2_raise {A B C : Type} (f : A -> B -> C) (a : list A) (b : list B) :
  length a <> length b -> zipE (pure2 f) a b = Raise RuntimeError.
Proof.
  revert b. induction a as [|x a IH]; intros [|y b] H; simpl in *;
    try reflexivity; try (contradiction H; reflexivity).
  rewrite IH by lia. reflexivity.
Qed.

Lemma inplace2_raise (f : R -> R -> R) (self other : Tensor) :
  length other <> length self -> length other <> 1%nat ->
  inplace2 f self other = Raise RuntimeError.
Proof.
  intros Hlen H1. unfold inplace2.
  destruct other as [|y [|y' other]];
    try (apply zipE_pure2_raise; simpl in *; lia).
  contradiction H1. reflexivity.
Qed.

Lemma bcast_singleton_r (f : R -> R -> R) (a : Tensor) (y : R) :
  broadcast2 f a [y] = Ok (map (fun x => f x y) a).
Proof.
  unfold broadcast2. rewrite bcast_rows. apply mapE_ok.
  apply Forall_forall. reflexivity.
Qed.

Lemma broadcast2_raise (f : R -> R -> R) (a b : Tensor) :
  length a <> length b -> length a <> 1%nat -> length b <> 1%nat ->
  broadcast2 f a b = Raise RuntimeError.
Proof.
  intros Hlen Ha Hb. unfold broadcast2, bcast.
  destruct a as [|x [|x' a]]; destruct b as [|y [|y' b]];
    try (contradiction Ha; reflexivity); try (contradiction Hb; reflexivity);
    try (contradiction Hlen; reflexivity);
    apply zipE_pure2_raise; exact Hlen.
Qed.

Lemma copy_raise (target src : Tensor) :
  length src <> length target -> length src <> 1%nat ->
  Nn.copy_ target src = Raise RuntimeError.
Proof. apply inplace2_raise. Qed.

Lemma soft_step_raise (tau : R) (target_param param : Tensor) :
  length param <> length target_param -> length param <> 1%nat ->
  (d <- broadcast2 Rminus param target_param ;; Nn.add_ (1 - tau) target_param d)
  = Raise RuntimeError.
Proof.
  intros Hlen H1.
  destruct (Nat.eq_dec (length target_param) 1) as [Ht|Ht].
  - destruct target_param as [|y [|y' target_param]]; try discriminate.
    rewrite bcast_singleton_r. simpl. unfold Nn.add_.
    apply inplace2_raise; rewrite length_map; assumption.
  - rewrite broadcast2_raise by assumption. reflexivity.
Qed.

Lemma zip_inplace_raise (op : Tensor -> Tensor -> Result Tensor)
    (g : Tensor -> Tensor -> Tensor) (e : Exception)
    (good_t good_s : list Tensor) (t s : Tensor) (rest_t rest_s : list Tensor) :
  Forall2 (fun t s => op t s = Ok (g t s)) good_t good_s ->
  op t s = Raise e ->
  Nn.zip_inplace op (good_t ++ t :: rest_t) (good_s ++ s :: rest_s) =
    (map2 g good_t good_s ++ t :: rest_t, Some e).
Proof.
  intros Hgood Hbad.
  induction Hgood as [|t' s' good_t good_s Hts _ IH].
  - simpl. rewrite Hbad. reflexivity.
  - rewrite <- !app_comm_cons. cbn [Nn.zip_inplace].
    rewrite Hts, IH, map2_cons. reflexivity.
Qed.

Lemma copied_prefix (good_t good_s : list Tensor) :
  same_topology good_t good_s ->
  map2 (fun _ s : Tensor => s) good_t good_s = good_s.
Proof.
  intros H. apply map2_snd_same, same_topology_length, H.
Qed.

(** X7: when the parameter tensors agree in shape up to some position and the
    live tensor at that position neither has the shape of the target tensor
    nor a single entry, both updates raise [RuntimeError] half-way: the
    buffers and the parameters before that position are already
    synchronised, the parameters from that position on are untouched. *)
Theorem update_stops_at_mismatch {In Out : Type}
    (net target_net : ParametricFunction In Out) (tau : R)
    (good_t good_s : list Tensor) (t s : Tensor) (rest_t rest_s : list Tensor) :
  paired_shapes (buffers target_net) (buffers net) ->
  parameters target_net = good_t ++ t :: rest_t ->
  parameters net = good_s ++ s :: rest_s ->
  same_topology good_t good_s ->
  length s <> length t -> length s <> 1%nat ->
  Nn.hard_update net target_net =
    (mkNet (forward target_net) (good_s ++ t :: rest_t)
       (synced (buffers target_net) (buffers net)),
     Some RuntimeError)
  /\ Nn.soft_update net target_net tau =
    (mkNet (forward target_net)
       (map2 (map2 (fun target_param param => tau * target_param + (1 - tau) * param))
          good_t good_s ++ t :: rest_t)
       (synced (buffers target_net) (buffers net)),
     Some RuntimeError).
Proof.
  intros Hb Ht Hs Hgood Hlen H1. split.
  - unfold Nn.hard_update, Nn.copy_buffer. rewrite (zip_copy _ _ Hb).
    cbn [with_buffers parameters buffers forward]. rewrite Ht, Hs.
    rewrite (zip_inplace_raise Nn.copy_ (fun _ s => s) RuntimeError).
    + rewrite (copied_prefix good_t good_s Hgood). reflexivity.
    + eapply Forall2_impl; [|exact Hgood]. intros a b Hab. apply copy_same, Hab.
    + apply copy_raise; assumption.
  - unfold Nn.soft_update, Nn.copy_buffer. rewrite (zip_copy _ _ Hb).
    cbn [with_buffers parameters buffers forward]. rewrite Ht, Hs.
    rewrite (zip_inplace_raise _ (blend tau) RuntimeError).
    + reflexivity.
    + eapply Forall2_impl; [|exact Hgood]. intros a b Hab.
      apply soft_step_same, Hab.
    + apply soft_step_raise; assumption.
Qed.

Lemma update_stops_at_mismatch_witness :
  Nn.hard_update (net_of [[1]; [2; 3]; [4]] [[7]]) (net_of [[0]; [5; 6; 7]; [8]] [[3]]) =
    (net_of [[1]; [5; 6; 7]; [8]] [[7]], Some RuntimeError).
Proof.
  apply (proj1 (update_stops_at_mismatch
                  (net_of [[1]; [2; 3]; [4]] [[7]]) (net_of [[0]; [5; 6; 7]; [8]] [[3]])
                  0 [[0]] [[1]] [5; 6; 7] [2; 3] [[8]] [[4]]
                  ltac:(repeat constructor) eq_refl eq_refl ltac:(repeat constructor)
                  ltac:(discriminate) ltac:(discriminate))).
Defined.

(** X8: when a buffer of the live network neither has the shape of the
    buffer it is paired with nor a single entry, both updates raise
    [RuntimeError] before any parameter of the target is written. *)
Theorem update_stops_at_buffer {In Out : Type}
    (net target_net : ParametricFunction In Out) (tau : R)
    (good_t good_s : list Tensor) (t s : Tensor) (rest_t rest_s : list Tensor) :
  buffers target_net = good_t ++ t :: rest_t ->
  buffers net = good_s ++ s :: rest_s ->
  same_topology good_t good_s ->
  length s <> length t -> length s <> 1%nat ->
  Nn.hard_update net target_net =
    (mkNet (forward target_net) (parameters target_net) (good_s ++ t :: rest_t),
     Some RuntimeError)
  /\ Nn.soft_update net target_net tau =
    (mkNet (forward target_net) (parameters target_net) (good_s ++ t :: rest_t),
     Some RuntimeError).
Proof.
  intros Ht Hs Hgood Hlen H1.
  assert (Hcopy : Nn.copy_buffer net target_net =
            (mkNet (forward target_net) (parameters target_net) (good_s ++ t :: rest_t),
             Some RuntimeError)).
  { unfold Nn.copy_buffer. rewrite Ht, Hs.
    rewrite (zip_inplace_raise Nn.copy_ (fun _ s => s) RuntimeError).
    - rewrite (copied_prefix good_t good_s Hgood). reflexivity.
    - eapply Forall2_impl; [|exact Hgood]. intros a b Hab. apply copy_same, Hab.
    - apply copy_raise; assumption. }
  unfold Nn.hard_update, Nn.soft_update. rewrite Hcopy. split; reflexivity.
Qed.

Lemma update_stops_at_buffer_witness :
  Nn.soft_update (net_of [[1]] [[7; 8]]) (net_of [[0]] [[3; 4; 5]]) (1 / 2) =
    (net_of [[0]] [[3; 4; 5]], Some RuntimeError).
Proof.
  apply (proj2 (update_stops_at_buffer
                  (net_of [[1]] [[7; 8]]) (net_of [[0]] [[3; 4; 5]]) (1 / 2)
                  [] [] [3; 4; 5] [7; 8] [] []
                  eq_refl eq_refl ltac:(constructor)
                  ltac:(discriminate) ltac:(discriminate))).
Defined.

(** ** The mixture loss, continued *)

Lemma exp_sum_products (a b : Tensor) :
  map exp (map2 Rplus a b) = map2 (fun x y => exp x * exp y) a b.
Proof.
  unfold map2. rewrite map_map. apply map_ext. intros [x y]. apply exp_plus.
Qed.

Lemma rows_likelihoods batch mus sigmas logpi :
  map (fun row => ln (tsum (map exp row))) (rows batch mus sigmas logpi)
  = map ln (likelihoods batch mus sigmas logpi).
Proof.
  revert mus sigmas logpi.
  induction batch as [|x batch IH]; intros [|mu mus] [|sigma sigmas] [|lp logpi];
    try reflexivity.
  simpl. rewrite IH. f_equal.
  unfold item_log_probs, item_likelihood. rewrite exp_sum_products. reflexivity.
Qed.

(** X9: without a correction factor and for any number [gs >= 1] of
    components, [gmm_loss] is minus the logarithm of the mixture density
    [sum_k exp(logpi_k) * N(x | mu_k, sigma_k)] of each item (its mean over
    the batch when [reduce] is set): the subtraction of the maximum changes
    nothing. *)
Theorem gmm_loss_log_mixture batch mus sigmas logpi (reduce : bool) :
  gmm_shapes batch mus sigmas logpi ->
  Forall (fun lp => (1 <= length lp)%nat) logpi ->
  batch <> [] ->
  Nn.gmm_loss batch mus sigmas logpi None reduce =
    Ok (let log_prob := map ln (likelihoods batch mus sigmas logpi) in
        if reduce then Nn.Scalar (- mean log_prob) else Nn.Vector (map Ropp log_prob)).
Proof.
  intros H Hgs _. rewrite gmm_loss_plain by assumption.
  replace (map shifted_logsumexp (rows batch mus sigmas logpi))
    with (map ln (likelihoods batch mus sigmas logpi)); [reflexivity|].
  rewrite <- rows_likelihoods. apply map_ext_in. intros row Hrow.
  symmetry. apply shifted_logsumexp_unshifted.
  pose proof (rows_at_least 1 _ _ _ _ H Hgs) as Hrows.
  rewrite Forall_forall in Hrows. specialize (Hrows row Hrow).
  destruct row; [simpl in Hrows; lia | discriminate].
Qed.

Lemma gmm_loss_log_mixture_witness :
  Nn.gmm_loss [[0]] [[[0]; [1]; [2]]] [[[1]; [1]; [1]]] [[0; 0; 0]] None true =
    Ok (Nn.Scalar
          (- mean (map ln (likelihoods [[0]] [[[0]; [1]; [2]]] [[[1]; [1]; [1]]]
                             [[0; 0; 0]])))).
Proof.
  apply (gmm_loss_log_mixture [[0]] [[[0]; [1]; [2]]] [[[1]; [1]; [1]]] [[0; 0; 0]] true
           ltac:(repeat constructor) ltac:(repeat constructor) ltac:(discriminate)).
Defined.

Lemma fold_left_Rmax_ge (l : Tensor) (x : R) : x <= fold_left Rmax l x.
Proof.
  revert x. induction l as [|y l IH]; intros x; simpl; [lra|].
  eapply Rle_trans; [apply (Rmax_l x y) | apply IH].
Qed.

Lemma Rmax_list_ge (row : Tensor) (x : R) : In x row -> x <= Rmax_list row.
Proof.
  destruct row as [|y row]; [contradiction|]. simpl. revert y.
  induction row as [|z row IH]; intros y [<-|Hin]; simpl.
  - lra.
  - contradiction.
  - eapply Rle_trans; [apply (Rmax_l y z) | apply fold_left_Rmax_ge].
  - destruct Hin as [<-|Hin].
    + eapply Rle_trans; [apply (Rmax_r y z) | apply fold_left_Rmax_ge].
    + apply IH. right. exact Hin.
Qed.

Lemma Rmax_list_in (row : Tensor) : row <> [] -> In (Rmax_list row) row.
Proof.
  destruct row as [|y row]; [intros H; contradiction H; reflexivity|]. intros _.
  simpl Rmax_list. revert y. induction row as [|z row IH]; intros y.
  - left. reflexivity.
  - simpl fold_left. destruct (IH (Rmax y z)) as [Heq|Hin].
    + rewrite <- Heq. unfold Rmax. destruct (Rle_dec y z).
      * right. left. reflexivity.
      * left. reflexivity.
    + right. right. exact Hin.
Qed.

Lemma exp_le (x y : R) : x <= y -> exp x <= exp y.
Proof.
  intros [H|H]; [left; apply exp_increasing, H | right; rewrite H; reflexivity].
Qed.

Lemma ln_le (x y : R) : 0 < x -> x <= y -> ln x <= ln y.
Proof.
  intros Hx [H|H]; [left; apply ln_increasing; assumption | right; rewrite H; reflexivity].
Qed.

Lemma tsum_ge_member (l : Tensor) (x : R) :
  Forall (Rlt 0) l -> In x l -> x <= tsum l.
Proof.
  induction 1 as [|y l Hy Hl IH]; intros Hin; [contradiction|].
  assert (Hpos : 0 <= tsum l).
  { clear IH Hin. induction Hl as [|z l Hz _ IH]; simpl; lra. }
  simpl. destruct Hin as [<-|Hin]; [lra|]. specialize (IH Hin). lra.
Qed.

Lemma tsum_le_length (l : Tensor) :
  Forall (fun y => y <= 1) l -> tsum l <= INR (length l).
Proof.
  induction 1 as [|y l Hy _ IH]; [simpl; lra|].
  simpl length. rewrite S_INR. simpl tsum. lra.
Qed.

Lemma shifted_logsumexp_bounds (row : Tensor) :
  row <> [] ->
  Rmax_list row <= shifted_logsumexp row <= Rmax_list row + ln (INR (length row)).
Proof.
  intros Hne. unfold shifted_logsumexp, shifted_probs.
  set (m := Rmax_list row). rewrite map_map.
  assert (Hpos : Forall (Rlt 0) (map (fun l => exp (l - m)) row)).
  { apply Forall_forall. intros y Hy. apply in_map_iff in Hy.
    destruct Hy as (l & <- & _). apply exp_pos. }
  assert (Hone : 1 <= tsum (map (fun l => exp (l - m)) row)).
  { apply tsum_ge_member; [exact Hpos|]. apply in_map_iff. exists m. split.
    - replace (m - m) with 0 by ring. apply exp_0.
    - apply Rmax_list_in, Hne. }
  assert (Hlen : tsum (map (fun l => exp (l - m)) row) <= INR (length row)).
  { rewrite <- (length_map (fun l => exp (l - m))). apply tsum_le_length.
    apply Forall_forall. intros y Hy. apply in_map_iff in Hy.
    destruct Hy as (l & <- & Hl). rewrite <- exp_0. apply exp_le.
    pose proof (Rmax_list_ge row l Hl). fold m in H. lra. }
  split.
  - pose proof (ln_le 1 _ Rlt_0_1 Hone) as H. rewrite ln_1 in H. lra.
  - apply Rplus_le_compat_l. apply ln_le; [lra | exact Hlen].
Qed.

(** X10: without a correction factor, the loss of every batch item lies
    within [log(gs)] of minus the largest component log-probability
    [max_k (logpi_k + log N(x | mu_k, sigma_k))] of the item, and never
    above it. *)
Theorem gmm_loss_bounds batch mus sigmas logpi :
  gmm_shapes batch mus sigmas logpi ->
  Forall (fun lp => (1 <= length lp)%nat) logpi ->
  exists loss : Tensor,
    Nn.gmm_loss batch mus sigmas logpi None false = Ok (Nn.Vector loss)
    /\ Forall2 (fun l row =>
                  - Rmax_list row - ln (INR (length row)) <= l <= - Rmax_list row)
         loss (rows batch mus sigmas logpi).
Proof.
  intros H Hgs.
  exists (neg (map shifted_logsumexp (rows batch mus sigmas logpi))).
  split; [apply (gmm_loss_plain _ _ _ _ false); assumption|].
  unfold neg. rewrite map_map.
  rewrite <- (map_id (rows batch mus sigmas logpi)) at 2.
  apply Forall2_maps.
  pose proof (rows_at_least 1 _ _ _ _ H Hgs) as Hrows.
  eapply Forall_impl; [|exact Hrows]. intros row Hrow. cbv beta in Hrow.
  assert (Hne : row <> []) by (destruct row; [simpl in Hrow; lia | discriminate]).
  pose proof (shifted_logsumexp_bounds row Hne). lra.
Qed.

Lemma gmm_loss_bounds_witness :
  exists loss : Tensor,
    Nn.gmm_loss [[0]] [[[0]; [1]; [2]]] [[[1]; [1]; [1]]] [[0; 0; 0]] None false
      = Ok (Nn.Vector loss)
    /\ Forall2 (fun l row =>
                  - Rmax_list row - ln (INR (length row)) <= l <= - Rmax_list row)
         loss (rows [[0]] [[[0]; [1]; [2]]] [[[1]; [1]; [1]]] [[0; 0; 0]]).
Proof.
  apply (gmm_loss_bounds [[0]] [[[0]; [1]; [2]]] [[[1]; [1]; [1]]] [[0; 0; 0]]);
    repeat constructor.
Defined.

Lemma rows_head batch mus sigmas logpi :
  gmm_shapes batch mus sigmas logpi -> batch <> [] ->
  exists row rest lp logpi',
    rows batch mus sigmas logpi = row :: rest /\ logpi = lp :: logpi'
    /\ length row = length lp.
Proof.
  intros H Hne.
  destruct H as [|x mu sigma lp batch mus sigmas logpi Hms Hlp H];
    [contradiction Hne; reflexivity|].
  exists (item_log_probs x mu sigma lp), (rows batch mus sigmas logpi), lp, logpi.
  split; [reflexivity|]. split; [reflexivity|].
  unfold item_log_probs. rewrite map2_length; [reflexivity|].
  rewrite map2_length; [exact Hlp|]. eapply Forall2_length, Hms.
Qed.

(** X11: a batch with no mixture component is refused with [IndexError],
    because the maximum is taken over an empty axis; with a correction
    factor, so is a batch with a single component, because component 1 is
    indexed. *)
Theorem gmm_loss_too_few_components batch mus sigmas logpi
    (correction_factor : option R) (reduce : bool) :
  gmm_shapes batch mus sigmas logpi ->
  batch <> [] ->
  (Forall (fun lp => length lp = 0%nat) logpi ->
   Nn.gmm_loss batch mus sigmas logpi correction_factor reduce = Raise IndexError)
  /\ (Forall (fun lp => length lp = 1%nat) logpi ->
      forall factor,
        Nn.gmm_loss batch mus sigmas logpi (Some factor) reduce = Raise IndexError).
Proof.
  intros H Hne.
  destruct (rows_head _ _ _ _ H Hne) as (row & rest & lp & logpi' & Hrows & Hlogpi & Hlen).
  split.
  - intros Hgs. unfold Nn.gmm_loss. cbv zeta.
    rewrite (Normal_ok _ _ _ _ H). bind_step.
    rewrite (log_prob_ok _ _ _ _ H). bind_step.
    rewrite (rows_ok _ _ _ _ H). bind_step.
    rewrite Hrows. subst logpi. inversion Hgs as [|? ? Hlp _]; subst.
    destruct row; [reflexivity | simpl in Hlen; lia].
  - intros Hgs factor. unfold Nn.gmm_loss. cbv zeta.
    rewrite (Normal_ok _ _ _ _ H). bind_step.
    rewrite (log_prob_ok _ _ _ _ H). bind_step.
    rewrite (rows_ok _ _ _ _ H). bind_step.
    assert (H1 : Forall (fun lp => (1 <= length lp)%nat) logpi).
    { eapply Forall_impl; [|exact Hgs]. intros l Hl. simpl in Hl. lia. }
    rewrite (max_log_probs_ok _ (rows_at_least 1 _ _ _ _ H H1)). bind_step.
    rewrite g_probs_rows. unfold Nn.correct.
    rewrite mapE_map, (mapE_ok _ (fun row => exp (nth 0 row 0 - Rmax_list row))).
    2:{ pose proof (rows_at_least 1 _ _ _ _ H H1) as Hrows1.
        eapply Forall_impl; [|exact Hrows1].
        intros [|l0 r] Hr; simpl in Hr; [lia | reflexivity]. }
    bind_step. rewrite Hrows. subst logpi. inversion Hgs as [|? ? Hlp _]; subst.
    destruct row as [|l0 [|l1 row]]; simpl in Hlen; try lia. reflexivity.
Qed.

Lemma gmm_loss_too_few_components_witness :
  Nn.gmm_loss [[0]; [1]] [[[0]]; [[1]]] [[[1]]; [[1]]] [[0]; [0]] (Some 2) true
  = Raise IndexError.
Proof.
  apply (proj2 (gmm_loss_too_few_components [[0]; [1]] [[[0]]; [[1]]] [[[1]]; [[1]]]
                  [[0]; [0]] None true
                  ltac:(repeat constructor) ltac:(discriminate))).
  repeat constructor.
Defined.

(** X12: with [reduce] set, [gmm_loss] returns the mean over the batch of
    what it returns item by item without it, and raises what it raises
    without it. *)
Theorem gmm_loss_reduce batch mus sigmas logpi (correction_factor : option R) :
  Nn.gmm_loss batch mus sigmas logpi correction_factor true =
    match Nn.gmm_loss batch mus sigmas logpi correction_factor false with
    | Ok (Nn.Vector loss) => Ok (Nn.Scalar (mean loss))
    | Ok (Nn.Scalar loss) => Ok (Nn.Scalar loss)
    | Raise e => Raise e
    end.
Proof.
  unfold Nn.gmm_loss. cbv zeta.
  destruct (Nn.Normal mus sigmas) as [normal_dist|e]; cbn [bind]; [|reflexivity].
  destruct (Nn.log_prob normal_dist _) as [g|e]; cbn [bind]; [|reflexivity].
  destruct (bcast (bcast (pure2 Rplus)) logpi (map (map tsum) g))
    as [g_log_probs|e]; cbn [bind]; [|reflexivity].
  destruct (mapE Nn.row_max g_log_probs) as [max_log_probs|e]; cbn [bind];
    [|reflexivity].
  destruct (Nn.correct correction_factor _) as [g_probs|e]; cbn [bind];
    [|reflexivity].
  rewrite mean_neg. reflexivity.
Qed.

Lemma corrected_inactive (correction_factor : R) (row : Tensor) :
  nth 0 row 0 < Rmax_list row ->
  corrected_log_prob correction_factor row =
    Rmax_list row
    + ln (exp (nth 0 row 0 - Rmax_list row) + exp (nth 1 row 0 - Rmax_list row)).
Proof.
  intros H. unfold corrected_log_prob. cbv zeta.
  destruct (Req_dec_T (exp (nth 0 row 0 - Rmax_list row)) 1) as [He|_].
  - exfalso. assert (Hlt : exp (nth 0 row 0 - Rmax_list row) < exp 0)
      by (apply exp_increasing; lra).
    rewrite exp_0 in Hlt. lra.
  - do 2 f_equal. ring.
Qed.

Lemma corrected_active (correction_factor : R) (row : Tensor) :
  nth 0 row 0 = Rmax_list row ->
  corrected_log_prob correction_factor row =
    nth 0 row 0 + ln (correction_factor + exp (nth 1 row 0 - nth 0 row 0)).
Proof.
  intros H. unfold corrected_log_prob. cbv zeta. rewrite <- H.
  replace (nth 0 row 0 - nth 0 row 0) with 0 by ring. rewrite exp_0.
  destruct (Req_dec_T 1 1) as [_|Hn]; [|contradiction Hn; reflexivity].
  do 2 f_equal. ring.
Qed.



(** ** The value function and the critic, continued *)

(** X14: when the live values and [expected_v] have one shape and the target
    has the topology of the live network, [A2CValue.optimize] returns the
    squared errors [(v - expected_v)^2] at the parameters before the step,
    moves the live parameters by one optimizer step on their mean, and then
    blends every target parameter with the new live one,
    [tau * target + (1 - tau) * live]. *)
Theorem value_optimize_step (self : A2CValue.t) (obs : list Tensor)
    (expected_v : Graph Tensor) :
  length (call (A2CValue._v_function self) obs)
    = length (expected_v (parameters (A2CValue._v_function self))) ->
  same_topology (parameters (A2CValue._target_v_function self))
    (stepped self obs expected_v) ->
  paired_shapes (buffers (A2CValue._target_v_function self))
    (buffers (A2CValue._v_function self)) ->
  A2CValue.optimize self obs expected_v =
    (A2CValue.mk
       (with_parameters (A2CValue._v_function self) (stepped self obs expected_v))
       (mkNet (forward (A2CValue._target_v_function self))
          (map2 (map2 (fun target_param param =>
                         A2CValue._tau self * target_param
                         + (1 - A2CValue._tau self) * param))
             (parameters (A2CValue._target_v_function self))
             (stepped self obs expected_v))
          (synced (buffers (A2CValue._target_v_function self))
             (buffers (A2CValue._v_function self))))
       (A2CValue._optimizer self) (A2CValue._tau self),
     Ok (map2 (fun v e => (v - e) ^ 2)
           (call (A2CValue._v_function self) obs)
           (expected_v (parameters (A2CValue._v_function self))))).
Proof.
  intros Hv Hp Hb. unfold A2CValue.optimize.
  assert (Hloss :
    A2CValue.v_loss self obs expected_v (parameters (A2CValue._v_function self)) =
    Ok (map2 (fun v e => (v - e) ^ 2)
          (call (A2CValue._v_function self) obs)
          (expected_v (parameters (A2CValue._v_function self))))).
  { unfold A2CValue.v_loss. fold (call (A2CValue._v_function self) obs).
    rewrite broadcast2_same by exact Hv. cbn [bind]. apply f_equal.
    unfold map2. rewrite map_map. reflexivity. }
  rewrite Hloss.
  change (step (A2CValue._optimizer self) _ (parameters (A2CValue._v_function self)))
    with (stepped self obs expected_v).
  rewrite soft_update_same_topology by assumption. reflexivity.
Qed.

Lemma value_optimize_step_witness :
  A2CValue.optimize (A2CValue.mk (linear_value 2) (linear_value 0) keep (1 / 2))
    [[1]; [3]] (fun _ => [1; 1])
  = (A2CValue.mk (linear_value 2)
       (mkNet (forward (linear_value 0))
          (map2 (map2 (fun target_param param =>
                         1 / 2 * target_param + (1 - 1 / 2) * param))
             [[0]] [[2]])
          [])
       keep (1 / 2),
     Ok (map2 (fun v e => (v - e) ^ 2) [2 * (1 + 0); 2 * (3 + 0)] [1; 1])).
Proof.
  apply (value_optimize_step (A2CValue.mk (linear_value 2) (linear_value 0) keep (1 / 2))
           [[1]; [3]] (fun _ => [1; 1]));
    repeat constructor.
Defined.

(** X15: [A2CValue.optimize] raises before the step when the live values and
    [expected_v] cannot be broadcast together, and leaves the object as it
    was; an exception of the soft update comes after the step, and the live
    parameters keep the step. *)
Theorem value_optimize_failures (self : A2CValue.t) (obs : list Tensor)
    (expected_v : Graph Tensor) :
  (length (call (A2CValue._v_function self) obs)
     <> length (expected_v (parameters (A2CValue._v_function self))) ->
   length (call (A2CValue._v_function self) obs) <> 1%nat ->
   length (expected_v (parameters (A2CValue._v_function self))) <> 1%nat ->
   A2CValue.optimize self obs expected_v = (self, Raise RuntimeError))
  /\ (length (call (A2CValue._v_function self) obs)
        = length (expected_v (parameters (A2CValue._v_function self))) ->
      forall e,
        snd (Nn.soft_update
               (with_parameters (A2CValue._v_function self) (stepped self obs expected_v))
               (A2CValue._target_v_function self) (A2CValue._tau self)) = Some e ->
        snd (A2CValue.optimize self obs expected_v) = Raise e
        /\ A2CValue._v_function (fst (A2CValue.optimize self obs expected_v)) =
           with_parameters (A2CValue._v_function self) (stepped self obs expected_v)).
Proof.
  split.
  - intros Hlen H1 H2. unfold A2CValue.optimize, A2CValue.v_loss.
    fold (call (A2CValue._v_function self) obs).
    rewrite broadcast2_raise by assumption. reflexivity.
  - intros Hv e Hsoft. unfold A2CValue.optimize, A2CValue.v_loss.
    fold (call (A2CValue._v_function self) obs).
    rewrite broadcast2_same by exact Hv. cbn [bind].
    change (step (A2CValue._optimizer self) _ (parameters (A2CValue._v_function self)))
      with (stepped self obs expected_v).
    destruct (Nn.soft_update _ _ _) as [target e']. simpl in Hsoft. subst e'.
    split; reflexivity.
Qed.

Lemma value_optimize_failures_witness :
  A2CValue.optimize (A2CValue.mk (linear_value 2) (linear_value 0) keep (1 / 2))
    [[1]; [3]] (fun _ => [1; 1; 1])
  = (A2CValue.mk (linear_value 2) (linear_value 0) keep (1 / 2), Raise RuntimeError).
Proof.
  apply (proj1 (value_optimize_failures
                  (A2CValue.mk (linear_value 2) (linear_value 0) keep (1 / 2))
                  [[1]; [3]] (fun _ => [1; 1; 1])));
    discriminate.
Defined.

Lemma tsum_nonneg (l : Tensor) : Forall (Rle 0) l -> 0 <= tsum l.
Proof.
  induction 1 as [|x l Hx _ IH]; simpl; lra.
Qed.

Lemma mean_nonneg (l : Tensor) : Forall (Rle 0) l -> 0 <= mean l.
Proof.
  intros H. unfold mean. destruct l as [|x l].
  - simpl. unfold Rdiv. rewrite Rmult_0_l. lra.
  - apply Rmult_le_pos; [apply tsum_nonneg, H|].
    left. apply Rinv_0_lt_compat, lt_0_INR. simpl. lia.
Qed.

Lemma mapE_raise {A B : Type} (f : A -> Result B) (e : Exception) (l : list A) :
  Forall (fun x => (exists y, f x = Ok y) \/ f x = Raise e) l ->
  Exists (fun x => f x = Raise e) l ->
  mapE f l = Raise e.
Proof.
  induction 1 as [|x l Hx Hl IH]; intros Hex; [inversion Hex|]. simpl.
  destruct Hx as [[y Hy]|Hx].
  - rewrite Hy. cbn [bind].
    inversion Hex as [? ? Hbad|? ? Hbad]; subst; [congruence|].
    rewrite (IH Hbad). reflexivity.
  - rewrite Hx. reflexivity.
Qed.

Lemma bcast_singleton_l (f : R -> R -> R) (x : R) (b : Tensor) :
  broadcast2 f [x] b = Ok (map (f x) b).
Proof.
  unfold broadcast2, bcast. apply mapE_ok. apply Forall_forall. reflexivity.
Qed.

Lemma broadcast2_outcome (f : R -> R -> R) (a b : Tensor) :
  (exists c, broadcast2 f a b = Ok c) \/ broadcast2 f a b = Raise RuntimeError.
Proof.
  destruct (Nat.eq_dec (length a) (length b)) as [Hab|Hab].
  - left. eexists. apply broadcast2_same, Hab.
  - destruct (Nat.eq_dec (length a) 1) as [Ha|Ha].
    + destruct a as [|x [|x' a]]; try discriminate.
      left. eexists. apply bcast_singleton_l.
    + destruct (Nat.eq_dec (length b) 1) as [Hb|Hb].
      * destruct b as [|y [|y' b]]; try discriminate.
        left. eexists. apply bcast_singleton_r.
      * right. apply broadcast2_raise; assumption.
Qed.

(** X17: [critic] needs as many reward columns as [traj.length] says: when
    [traj.length] is not 1 and some episode of the split-off batch has a
    number of rewards that is neither [traj.length] nor 1, it raises
    [RuntimeError]. *)
Theorem critic_reward_columns {Act : Type} (self : A2CValueCritic.t)
    (traj trunctraj : @A2CValueCritic.BatchTraj Act) (target : bool)
    (lastobs : list Tensor) (lastaction : list Act) (lastreward done : Tensor) :
  BatchTraj.splitlast traj = Ok (trunctraj, (lastobs, lastaction, lastreward, done)) ->
  BatchTraj.length traj <> 1%nat ->
  Exists (fun row => length row <> BatchTraj.length traj /\ length row <> 1%nat)
    (BatchTraj.rewards trunctraj) ->
  A2CValueCritic.critic self traj target = Raise RuntimeError.
Proof.
  intros Hsplit HL Hbad. unfold A2CValueCritic.critic. rewrite Hsplit. cbn [bind].
  cbv zeta. rewrite bcast_rows.
  rewrite (mapE_raise _ RuntimeError); [reflexivity| |].
  - apply Forall_forall. intros row _. apply broadcast2_outcome.
  - eapply Exists_impl; [|exact Hbad]. intros row [Hrow H1].
    apply broadcast2_raise; rewrite ?length_map, ?length_seq; assumption.
Qed.

Lemma critic_reward_columns_witness :
  A2CValueCritic.critic critic_ex
    (BatchTraj.mk 3%nat [[[5]; [7]; [1]]] [[tt; tt; tt]] [[1; 2; 9]] [[0; 0; 0]]) true
  = Raise RuntimeError.
Proof.
  apply (critic_reward_columns critic_ex
           (BatchTraj.mk 3%nat [[[5]; [7]; [1]]] [[tt; tt; tt]] [[1; 2; 9]] [[0; 0; 0]])
           (BatchTraj.mk 2%nat [[[5]; [7]]] [[tt; tt]] [[1; 2]] [[0; 0]])
           true [[1]] [tt] [9] [0] eq_refl).
  - discriminate.
  - constructor. split; discriminate.
Defined.

(** ** The bootstrapped return on the batches of the trajectory memory *)

Lemma last_cons {A : Type} (x d : A) (l : list A) : last (x :: l) d = last l x.
Proof.
  revert x d. induction l as [|y l IH]; intros x d; [reflexivity|].
  change (last (x :: y :: l) d) with (last (y :: l) d).
  rewrite (IH y d), (IH y x). reflexivity.
Qed.

Lemma mapE_last_step {A : Type} (d : A) (n : nat) (m : list (list A)) :
  Forall (fun episode => length episode = S n) m ->
  mapE BatchTraj.last_step m = Ok (map (fun episode => last episode d) m).
Proof.
  intros H. apply mapE_ok. eapply Forall_impl; [|exact H].
  intros [|x episode] He; [discriminate|]. simpl BatchTraj.last_step.
  rewrite last_cons. reflexivity.
Qed.

Lemma mapE_last_step_total {A : Type} (n : nat) (m : list (list A)) :
  Forall (fun episode => length episode = S n) m ->
  exists last_steps, mapE BatchTraj.last_step m = Ok last_steps.
Proof.
  induction 1 as [|[|x episode] m He _ [ys IH]]; [eexists; reflexivity|discriminate|].
  eexists. simpl. rewrite IH. reflexivity.
Qed.

Lemma mapE_length {A B : Type} (f : A -> Result B) (l : list A) (ys : list B) :
  mapE f l = Ok ys -> length ys = length l.
Proof.
  revert ys. induction l as [|x l IH]; intros ys H; simpl in H.
  - injection H as <-. reflexivity.
  - destruct (f x) as [y|e]; [|discriminate]. cbn [bind] in H.
    destruct (mapE f l) as [ys'|e]; [|discriminate]. cbn [bind] in H.
    injection H as <-. simpl. rewrite (IH ys' eq_refl). reflexivity.
Qed.

Lemma map2_map_l {A A' B C : Type} (f : A' -> B -> C) (g : A -> A')
    (a : list A) (b : list B) :
  map2 f (map g a) b = map2 (fun x y => f (g x) y) a b.
Proof.
  unfold map2. revert b. induction a as [|x a IH]; intros [|y b]; simpl;
    try reflexivity.
  rewrite IH. reflexivity.
Qed.

Section ConformingBatch.

Context {Act : Type}.

Variable self : A2CValueCritic.t.
Variable traj : @A2CValueCritic.BatchTraj Act.
Variable target : bool.

Local Abbreviation gamma := (A2CValueCritic._gamma self).
Local Abbreviation rewards := (BatchTraj.rewards traj).
Local Abbreviation done := (last_column (BatchTraj.done traj)).
Local Abbreviation value :=
  (A2CValue.value (A2CValueCritic._a2cvalue self) (last_obs (BatchTraj.obs traj)) target).

Hypothesis Hwf : BatchTraj.wf traj.

(** What [splitlast] returns on a batch of at least one time step. *)
Lemma splitlast_steps (n : nat) :
  BatchTraj.length traj = S n ->
  exists lastaction,
    BatchTraj.splitlast traj =
      Ok (BatchTraj.mk n
            (map (@removelast Tensor) (BatchTraj.obs traj))
            (map (@removelast Act) (BatchTraj.actions traj))
            (map (@removelast R) rewards)
            (map (@removelast R) (BatchTraj.done traj)),
          (last_obs (BatchTraj.obs traj), lastaction, last_column rewards, done)).
Proof.
  intros HL. destruct Hwf as (Ho & Ha & Hr & Hd & _). rewrite HL in Ho, Ha, Hr, Hd.
  destruct (mapE_last_step_total n _ Ha) as [lastaction Hla].
  exists lastaction. unfold BatchTraj.splitlast. rewrite HL.
  change (S n <? 1)%nat with false. cbv iota.
  rewrite (mapE_last_step ([] : Tensor) n _ Ho). bind_step.
  rewrite Hla. bind_step.
  rewrite (mapE_last_step 0 n _ Hr). bind_step.
  rewrite (mapE_last_step 0 n _ Hd). bind_step.
  replace (S n - 1)%nat with n by lia. reflexivity.
Qed.

Hypothesis Hvalue : length value = length rewards.

(** On a batch of [S n] time steps, [critic] multiplies the [n] rewards that
    the truncated batch keeps of every episode by the [S n] discounts of
    [arange(length)]. *)
Lemma critic_steps (n : nat) :
  BatchTraj.length traj = S n ->
  A2CValueCritic.critic self traj target =
    (discounted_rewards <-
       mapE (fun episode =>
               broadcast2 Rmult (removelast episode)
                 (map (fun t => gamma ^ t) (seq 0 (S n))))
         rewards ;;
     Ok (map2 Rplus (map tsum discounted_rewards)
           (map2 Rmult (map (fun d => (1 - d) * gamma ^ S n) done) value))).
Proof.
  intros HL. destruct (splitlast_steps n HL) as [lastaction Hsplit].
  pose proof Hvalue as Hv.
  assert (Hd : length done = length rewards).
  { unfold last_column. rewrite length_map.
    destruct Hwf as (_ & _ & _ & _ & _ & Hr & Hd).
    transitivity (length (BatchTraj.obs traj)); [exact Hd | symmetry; exact Hr]. }
  unfold A2CValueCritic.critic. rewrite Hsplit, HL. bind_step.
  cbn [BatchTraj.rewards]. rewrite bcast_rows, mapE_map.
  change (mapE (fun x : list R => bcast (pure2 Rmult) (removelast x)
                                   (map (fun t => gamma ^ t) (seq 0 (S n)))) rewards)
    with (mapE (fun episode : list R =>
                  broadcast2 Rmult (removelast episode)
                    (map (fun t => gamma ^ t) (seq 0 (S n)))) rewards).
  destruct (mapE (fun episode : list R =>
                    broadcast2 Rmult (removelast episode)
                      (map (fun t => gamma ^ t) (seq 0 (S n)))) rewards)
    as [discounted_rewards|e] eqn:Hdr; [|reflexivity].
  apply mapE_length in Hdr. bind_step. rewrite map_map.
  rewrite broadcast2_same by (rewrite length_map, Hd, Hv; reflexivity).
  bind_step. apply inplace2_same.
  rewrite map2_length by (rewrite length_map, Hd, Hv; reflexivity).
  rewrite !length_map, Hdr, Hd. reflexivity.
Qed.

(** One time step: the truncated batch has no reward left. *)
Lemma critic_one_step :
  BatchTraj.length traj = 1%nat ->
  A2CValueCritic.critic self traj target =
    Ok (map2 (fun d v => (1 - d) * gamma * v) done value).
Proof.
  intros HL. rewrite (critic_steps 0 HL).
  rewrite (mapE_ok (fun episode : list R =>
                      broadcast2 Rmult (removelast episode)
                        (map (fun t => gamma ^ t) (seq 0 1)))
             (fun _ => []) rewards).
  2:{ destruct Hwf as (_ & _ & Hr & _). rewrite HL in Hr.
      eapply Forall_impl; [|exact Hr].
      intros [|r [|r' episode]] He; try discriminate. reflexivity. }
  bind_step. apply f_equal. rewrite map_map.
  pose proof Hvalue as Hv.
  assert (Hd : length done = length rewards).
  { unfold last_column. rewrite length_map.
    destruct Hwf as (_ & _ & _ & _ & _ & Hr & Hd).
    transitivity (length (BatchTraj.obs traj)); [exact Hd | symmetry; exact Hr]. }
  revert Hv Hd. generalize value, done. clear.
  induction rewards as [|row rows IH]; intros [|v vs] [|d ds] Hv Hd;
    try discriminate; [reflexivity|].
  simpl map. rewrite !map2_cons. f_equal.
  - simpl. ring.
  - apply IH; simpl in *; lia.
Qed.

(** Two time steps: the one reward that the truncated batch keeps is
    stretched over both discounts. *)
Lemma critic_two_steps :
  BatchTraj.length traj = 2%nat ->
  A2CValueCritic.critic self traj target =
    Ok (map2 Rplus (map (fun episode => hd 0 episode + gamma * hd 0 episode) rewards)
          (map2 (fun d v => (1 - d) * gamma ^ 2 * v) done value)).
Proof.
  intros HL. rewrite (critic_steps 1 HL).
  rewrite (mapE_ok (fun episode : list R =>
                      broadcast2 Rmult (removelast episode)
                        (map (fun t => gamma ^ t) (seq 0 2)))
             (fun episode => [hd 0 episode * gamma ^ 0; hd 0 episode * gamma ^ 1])
             rewards).
  2:{ destruct Hwf as (_ & _ & Hr & _). rewrite HL in Hr.
      eapply Forall_impl; [|exact Hr].
      intros [|r [|r' [|r'' episode]]] He; try discriminate. reflexivity. }
  bind_step. apply f_equal. rewrite map_map.
  apply (f_equal2 (map2 Rplus)).
  - apply map_ext. intros episode. simpl. ring.
  - apply map2_map_l.
Qed.

(** Three time steps or more: the rewards of the truncated batch and the
    discounts cannot be broadcast together. *)
Lemma critic_three_steps :
  rewards <> [] -> (3 <= BatchTraj.length traj)%nat ->
  A2CValueCritic.critic self traj target = Raise RuntimeError.
Proof.
  intros Hne HL. destruct (BatchTraj.length traj) as [|n] eqn:Hn; [lia|].
  rewrite (critic_steps n Hn).
  rewrite (mapE_raise (fun episode : list R =>
                         broadcast2 Rmult (removelast episode)
                           (map (fun t => gamma ^ t) (seq 0 (S n))))
             RuntimeError rewards); [reflexivity| |].
  - apply Forall_forall. intros episode _. apply broadcast2_outcome.
  - destruct Hwf as (_ & _ & Hr & _). rewrite Hn in Hr.
    destruct rewards as [|episode rows]; [contradiction Hne; reflexivity|].
    apply Exists_cons_hd. inversion Hr as [|? ? He _]; subst.
    assert (Hlen : length (removelast episode) = n).
    { destruct episode as [|r episode] using rev_ind; [discriminate|].
      rewrite removelast_last. rewrite length_app in He. simpl in He. lia. }
    apply broadcast2_raise; rewrite ?length_map, ?length_seq, ?Hlen; lia.
Qed.

End ConformingBatch.

Lemma terminal_bootstrap (k : R) (done value : Tensor) :
  Forall (eq 1) done -> length done = length value ->
  map2 (fun d v => (1 - d) * k * v) done value = map (fun _ => 0) value.
Proof.
  intros H. revert value.
  induction H as [|d done <- _ IH]; intros [|v value] Hlen; try discriminate;
    [reflexivity|].
  rewrite map2_cons. simpl map. f_equal; [ring|]. apply IH. simpl in Hlen. lia.
Qed.

Lemma map2_plus_zero {A : Type} (base : Tensor) (l : list A) :
  length base = length l -> map2 Rplus base (map (fun _ => 0) l) = base.
Proof.
  revert l. induction base as [|x base IH]; intros [|y l] Hlen; try discriminate;
    [reflexivity|].
  simpl map. rewrite map2_cons. f_equal; [ring|]. apply IH. simpl in Hlen. lia.
Qed.

Lemma map_zero_length {A B : Type} (a : list A) (b : list B) :
  length a = length b -> map (fun _ => 0) a = map (fun _ => 0) b.
Proof.
  revert b. induction a as [|x a IH]; intros [|y b] Hlen; try discriminate;
    [reflexivity|].
  simpl. f_equal. apply IH. simpl in Hlen. lia.
Qed.



(** On the batch of one time step, with rewards 1 and 4, discount [1/2] and
    live values 10 and 12 at the last observations, [critic] returns 5 and
    6; the formula of the specification gives 6 and 10. *)
Example critic_sample :
  A2CValueCritic.critic critic_ex (one_step_ex [0; 0]) false = Ok [5; 6]
  /\ bootstrapped_return (1 / 2) 1 [1] 0 10 = 6
  /\ bootstrapped_return (1 / 2) 1 [4] 0 12 = 10.
Proof.
  split; [|split].
  - rewrite critic_one_step;
      [|repeat split; repeat constructor | reflexivity | reflexivity].
    apply f_equal. unfold map2. simpl. f_equal; [lra|]. f_equal. lra.
  - unfold bootstrapped_return, discounted_sum. simpl. lra.
  - unfold bootstrapped_return, discounted_sum. simpl. lra.
Qed.



(** ** The actors, continued *)

Lemma mapE_Forall2 {A B : Type} (f : A -> Result B) (P : B -> A -> Prop) (l : list A) :
  Forall (fun x => exists y, f x = Ok y /\ P y x) l ->
  exists ys, mapE f l = Ok ys /\ Forall2 P ys l.
Proof.
  induction 1 as [|x l (y & Hy & HP) _ (ys & Hys & HF)].
  - exists []. split; [reflexivity | constructor].
  - exists (y :: ys). simpl. rewrite Hy, Hys. split; [reflexivity|].
    constructor; assumption.
Qed.

Lemma argmax_from_spec (row pre : Tensor) (best_i : nat) (best : R) :
  (best_i < length pre)%nat -> nth best_i pre 0 = best ->
  (forall y, In y pre -> y <= best) ->
  (A2CActorDiscreteAct.argmax_from best_i best (length pre) row < length (pre ++ row))%nat
  /\ forall y, In y (pre ++ row) ->
       y <= nth (A2CActorDiscreteAct.argmax_from best_i best (length pre) row)
              (pre ++ row) 0.
Proof.
  revert pre best_i best.
  induction row as [|x row IH]; intros pre best_i best Hi Hnth Hmax.
  - simpl. rewrite app_nil_r. split; [exact Hi|]. rewrite Hnth. exact Hmax.
  - simpl A2CActorDiscreteAct.argmax_from.
    assert (Hlen : length (pre ++ [x]) = S (length pre))
      by (rewrite length_app; simpl; lia).
    assert (Happ : (pre ++ [x]) ++ row = pre ++ x :: row)
      by (rewrite <- app_assoc; reflexivity).
    destruct (Rlt_dec best x) as [Hlt|Hge].
    + pose proof (IH (pre ++ [x]) (length pre) x) as H.
      rewrite Hlen, Happ in H. apply H.
      * lia.
      * rewrite app_nth2, Nat.sub_diag by lia. reflexivity.
      * intros y Hy. apply in_app_or in Hy. destruct Hy as [Hy|[<-|[]]]; [|lra].
        specialize (Hmax y Hy). lra.
    + pose proof (IH (pre ++ [x]) best_i best) as H.
      rewrite Hlen, Happ in H. apply H.
      * lia.
      * rewrite app_nth1 by exact Hi. exact Hnth.
      * intros y Hy. apply in_app_or in Hy. destruct Hy as [Hy|[<-|[]]]; [|lra].
        apply Hmax, Hy.
Qed.

Lemma argmax_spec (row : Tensor) :
  row <> [] ->
  exists k, A2CActorDiscreteAct.argmax row = Ok k
            /\ (k < length row)%nat /\ forall y, In y row -> y <= nth k row 0.
Proof.
  destruct row as [|x row]; [intros H; contradiction H; reflexivity|]. intros _.
  eexists. split; [reflexivity|].
  apply (argmax_from_spec row [x] 0 x).
  - simpl. lia.
  - reflexivity.
  - intros y [<-|[]]. lra.
Qed.

(** X19: the deterministic action of the discrete actor is greedy: for every
    observation [act] returns the index of an action whose logit no other
    logit exceeds; an observation without any logit is refused with
    [IndexError]. *)
Theorem act_greedy {Obs : Type} (self : @A2CActorDiscrete.t Obs (list Tensor)) (obs : Obs) :
  (Forall (fun logits => logits <> [])
     (call (A2CActorDiscrete._policy_function self) obs) ->
   exists action : list nat,
     A2CActorDiscreteAct.act self obs = Ok action
     /\ Forall2 (fun a logits =>
                   (a < length logits)%nat
                   /\ forall logit, In logit logits -> logit <= nth a logits 0)
          action (call (A2CActorDiscrete._policy_function self) obs))
  /\ (Exists (fun logits => logits = [])
        (call (A2CActorDiscrete._policy_function self) obs) ->
      A2CActorDiscreteAct.act self obs = Raise IndexError).
Proof.
  split.
  - intros H. unfold A2CActorDiscreteAct.act. apply mapE_Forall2.
    eapply Forall_impl; [|exact H]. intros row Hrow. apply argmax_spec, Hrow.
  - intros H. unfold A2CActorDiscreteAct.act. apply mapE_raise.
    + apply Forall_forall. intros [|x row] _; [right | left; eexists]; reflexivity.
    + eapply Exists_impl; [|exact H]. intros row ->. reflexivity.
Qed.

Lemma act_greedy_witness :
  exists action : list nat,
    A2CActorDiscreteAct.act logits_ex tt = Ok action
    /\ Forall2 (fun a logits =>
                  (a < length logits)%nat
                  /\ forall logit, In logit logits -> logit <= nth a logits 0)
         action (call (A2CActorDiscrete._policy_function logits_ex) tt).
Proof.
  apply (proj1 (act_greedy logits_ex tt)).
  repeat constructor; discriminate.
Defined.

(** The greedy actions of the sample policy: the larger logit [2 * 3] of the
    first observation, and the first of the two largest logits of the
    second. *)
Example act_sample : A2CActorDiscreteAct.act logits_ex tt = Ok [1%nat; 0%nat].
Proof.
  unfold A2CActorDiscreteAct.act, call. simpl.
  destruct (Rlt_dec 3 (2 * 3)) as [_|H]; [|lra].
  destruct (Rlt_dec 1 0) as [H|_]; [lra|].
  destruct (Rlt_dec 1 1) as [H|_]; [lra|]. reflexivity.
Qed.

Lemma softmax_head (row : Tensor) :
  row <> [] ->
  index 0 (A2CActorDiscreteAct.softmax row) =
    Ok (exp (nth 0 row 0) / tsum (map exp row)).
Proof.
  destruct row as [|x row]; [intros H; contradiction H; reflexivity|]. reflexivity.
Qed.

(** X20: for every observation with at least one action, [actions] of the
    discrete actor returns the softmax probability of action 0,
    [exp(logit_0) / sum_k exp(logit_k)], a number in [(0, 1]]; an observation
    without any logit is refused with [IndexError]. *)
Theorem actions_probability {Obs : Type} (self : @A2CActorDiscrete.t Obs (list Tensor))
    (obs : Obs) :
  (Forall (fun logits => logits <> [])
     (call (A2CActorDiscrete._policy_function self) obs) ->
   A2CActorDiscreteAct.actions self obs =
     Ok (map (fun logits => exp (nth 0 logits 0) / tsum (map exp logits))
           (call (A2CActorDiscrete._policy_function self) obs))
   /\ Forall (fun logits =>
                0 < exp (nth 0 logits 0) / tsum (map exp logits) <= 1)
        (call (A2CActorDiscrete._policy_function self) obs))
  /\ (Exists (fun logits => logits = [])
        (call (A2CActorDiscrete._policy_function self) obs) ->
      A2CActorDiscreteAct.actions self obs = Raise IndexError).
Proof.
  split.
  - intros H. split.
    + unfold A2CActorDiscreteAct.actions. rewrite mapE_map. apply mapE_ok.
      eapply Forall_impl; [|exact H]. intros row Hrow. apply softmax_head, Hrow.
    + eapply Forall_impl; [|exact H]. intros row Hrow.
      pose proof (tsum_exp_pos row Hrow) as Hpos.
      assert (Hle : exp (nth 0 row 0) <= tsum (map exp row)).
      { apply tsum_ge_member.
        - apply Forall_forall. intros y Hy. apply in_map_iff in Hy.
          destruct Hy as (l & <- & _). apply exp_pos.
        - apply in_map, nth_In. destruct row; [contradiction Hrow; reflexivity|].
          simpl. lia. }
      pose proof (exp_pos (nth 0 row 0)) as He. split.
      * apply Rdiv_lt_0_compat; assumption.
      * apply (Rmult_le_reg_r (tsum (map exp row))); [exact Hpos|].
        unfold Rdiv. rewrite Rmult_assoc, Rinv_l by lra. lra.
  - intros H. unfold A2CActorDiscreteAct.actions. rewrite mapE_map.
    apply mapE_raise.
    + apply Forall_forall. intros [|x row] _; [right | left; eexists]; reflexivity.
    + eapply Exists_impl; [|exact H]. intros row ->. reflexivity.
Qed.

Lemma actions_probability_witness :
  A2CActorDiscreteAct.actions logits_ex tt =
    Ok (map (fun logits => exp (nth 0 logits 0) / tsum (map exp logits))
          (call (A2CActorDiscrete._policy_function logits_ex) tt)).
Proof.
  apply (proj1 (proj1 (actions_probability logits_ex tt)
                  ltac:(repeat constructor; discriminate))).
Defined.

(** ** The [LogSoftmax] wrapper *)

Lemma log_softmax_sum (row : Tensor) :
  row <> [] -> tsum (map exp (LogSoftmax.log_softmax row)) = 1.
Proof.
  intros H. unfold LogSoftmax.log_softmax.
  pose proof (tsum_exp_pos row H) as Hpos.
  rewrite tsum_exp_shift, exp_Ropp, exp_ln by exact Hpos.
  apply Rinv_l. lra.
Qed.

Lemma log_softmax_idempotent (row : Tensor) :
  LogSoftmax.log_softmax (LogSoftmax.log_softmax row) = LogSoftmax.log_softmax row.
Proof.
  destruct row as [|x row]; [reflexivity|].
  unfold LogSoftmax.log_softmax at 1.
  rewrite log_softmax_sum by discriminate. rewrite ln_1.
  rewrite <- (map_id (LogSoftmax.log_softmax (x :: row))) at 2.
  apply map_ext. intros y. ring.
Qed.

(** X21: the rows that a [LogSoftmax] network returns are log-probabilities:
    no entry is positive and the exponentials of a nonempty row sum to 1;
    wrapping a wrapped network once more changes nothing; the wrapper has
    the parameters and buffers of its core, so that target updates act on
    them. *)
Theorem log_softmax_rows {In : Type} (core : ParametricFunction In (list Tensor))
    (inputs : In) :
  Forall (fun row => Forall (fun x => x <= 0) row
                     /\ (row <> [] -> tsum (map exp row) = 1))
    (call (LogSoftmax.wrap core) inputs)
  /\ call (LogSoftmax.wrap (LogSoftmax.wrap core)) inputs
     = call (LogSoftmax.wrap core) inputs
  /\ parameters (LogSoftmax.wrap core) = parameters core
  /\ buffers (LogSoftmax.wrap core) = buffers core.
Proof.
  split; [|split; [|split; reflexivity]].
  - unfold call, LogSoftmax.wrap. simpl. apply Forall_forall. intros row' Hrow'.
    apply in_map_iff in Hrow'. destruct Hrow' as (row & <- & _). split.
    + apply Forall_forall. intros y Hy. unfold LogSoftmax.log_softmax in Hy.
      apply in_map_iff in Hy. destruct Hy as (x & <- & Hx).
      assert (Hne : row <> []) by (destruct row; [contradiction | discriminate]).
      pose proof (tsum_exp_pos row Hne) as Hpos.
      assert (Hle : exp x <= tsum (map exp row)).
      { apply tsum_ge_member; [|apply in_map, Hx].
        apply Forall_forall. intros z Hz. apply in_map_iff in Hz.
        destruct Hz as (l & <- & _). apply exp_pos. }
      pose proof (ln_le _ _ (exp_pos x) Hle) as Hln. rewrite ln_exp in Hln. lra.
    + intros Hne. apply log_softmax_sum.
      destruct row; [contradiction Hne; reflexivity | discriminate].
  - unfold call, LogSoftmax.wrap. simpl. rewrite map_map. apply map_ext.
    intros row. apply log_softmax_idempotent.
Qed.

(** ** The PPO loss, continued *)

Lemma loss_base {Act : Type}
    (kl_divergence : Distribution Act Tensor -> Distribution Act Tensor -> Tensor)
    (distr : Distribution Act Tensor) (actions : Act) (critic_value : Tensor)
    (eps_clamp : R) (old_logp : Tensor) (old_distr : option (Distribution Act Tensor)) :
  length (log_prob distr actions) = length critic_value ->
  length old_logp = length critic_value ->
  PPO.loss kl_divergence distr actions critic_value 0 eps_clamp 0 old_logp old_distr =
    Ok (mean (clipped_objective eps_clamp (log_prob distr actions) old_logp critic_value)).
Proof.
  intros Hlogp Hold.
  rewrite loss_unfolded by (assumption || (intros H; contradiction H; reflexivity)).
  destruct (Req_dec_T 0 0) as [_|H]; [|contradiction H; reflexivity].
  f_equal. ring.
Qed.

(** X22: for [-1 < eps_clamp < 1] and while no log-ratio leaves the trust
    region (at most [log(1 + eps_clamp)] where the advantage is positive, at
    least [log(1 - eps_clamp)] elsewhere), the loss without entropy and KL
    terms is the importance-weighted objective [-mean(ratio * advantage)]
    with [ratio = exp(log_prob(actions) - old_logp)]. *)
Theorem ppo_loss_inside_region {Act : Type}
    (kl_divergence : Distribution Act Tensor -> Distribution Act Tensor -> Tensor)
    (distr : Distribution Act Tensor) (actions : Act) (critic_value : Tensor)
    (eps_clamp : R) (old_logp : Tensor) (old_distr : option (Distribution Act Tensor)) :
  length (log_prob distr actions) = length critic_value ->
  length old_logp = length critic_value ->
  critic_value <> [] ->
  -1 < eps_clamp < 1 ->
  Forall2 (fun log_ratio a =>
             (0 < a -> log_ratio <= ln (1 + eps_clamp))
             /\ (a <= 0 -> ln (1 - eps_clamp) <= log_ratio))
    (map2 Rminus (log_prob distr actions) old_logp) critic_value ->
  PPO.loss kl_divergence distr actions critic_value 0 eps_clamp 0 old_logp old_distr =
    Ok (- mean (map2 (fun log_ratio a => exp log_ratio * a)
                  (map2 Rminus (log_prob distr actions) old_logp) critic_value)).
Proof.
  intros Hlogp Hold _ _ Hin. rewrite loss_base by assumption.
  rewrite mean_clipped_objective. apply f_equal, f_equal, f_equal.
  clear Hlogp Hold.
  induction Hin as [|lr a logr adv [Hup Hlow] _ IH]; [reflexivity|].
  rewrite !map2_cons, IH. f_equal. unfold clipped_log_ratio.
  destruct (Rlt_dec 0 a) as [Ha|Ha].
  - rewrite Rmin_left by (apply Hup, Ha). reflexivity.
  - rewrite Rmax_left by (apply Hlow; lra). reflexivity.
Qed.

Lemma ppo_loss_inside_region_witness :
  PPO.loss kl_ex distr_ex tt [1; 3] 0 (1 / 2) 0 [0; 0] None =
    Ok (- mean (map2 (fun log_ratio a => exp log_ratio * a)
                  (map2 Rminus [0; 0] [0; 0]) [1; 3])).
Proof.
  apply (ppo_loss_inside_region kl_ex distr_ex tt [1; 3] (1 / 2) [0; 0] None
           eq_refl eq_refl ltac:(discriminate) ltac:(lra)).
  assert (Hln : 0 < ln (1 + 1 / 2)) by (rewrite <- ln_1; apply ln_increasing; lra).
  repeat constructor; simpl; intros; lra.
Defined.

Lemma clipped_item_bound (eps_clamp a log_ratio : R) :
  0 <= eps_clamp < 1 ->
  - (a + eps_clamp * Rabs a) <= - (exp (clipped_log_ratio eps_clamp a log_ratio) * a).
Proof.
  intros [H0 H1]. unfold clipped_log_ratio. destruct (Rlt_dec 0 a) as [Ha|Ha].
  - assert (He : exp (Rmin log_ratio (ln (1 + eps_clamp))) <= 1 + eps_clamp).
    { rewrite <- (exp_ln (1 + eps_clamp)) at 2 by lra. apply exp_le, Rmin_r. }
    rewrite Rabs_right by lra. nra.
  - assert (He : 1 - eps_clamp <= exp (Rmax log_ratio (ln (1 - eps_clamp)))).
    { rewrite <- (exp_ln (1 - eps_clamp)) at 1 by lra. apply exp_le, Rmax_r. }
    rewrite Rabs_left1 by lra. nra.
Qed.

Lemma clipped_objective_bound (eps_clamp : R) (logr advantage : Tensor) :
  0 <= eps_clamp < 1 ->
  length logr = length advantage ->
  - (tsum advantage + eps_clamp * tsum (map Rabs advantage))
  <= tsum (map2 (fun log_ratio a => - (exp (clipped_log_ratio eps_clamp a log_ratio) * a))
             logr advantage).
Proof.
  intros Heps Hlen. revert advantage Hlen.
  induction logr as [|lr logr IH]; intros [|a advantage] Hlen; try discriminate.
  - simpl. lra.
  - rewrite map2_cons. simpl map. simpl tsum.
    specialize (IH advantage ltac:(simpl in Hlen; lia)).
    pose proof (clipped_item_bound eps_clamp a lr Heps). lra.
Qed.

(** X23: through the loss method of either PPO actor class, with
    [0 <= eps_clamp < 1] and neither entropy nor KL term, the loss cannot
    fall below [-(mean(advantage) + eps_clamp * mean(|advantage|))], whatever
    the new policy is: the clipping caps what a policy change can gain. *)
Theorem ppo_loss_lower_bound {Act : Type}
    (kl_divergence : Distribution Act Tensor -> Distribution Act Tensor -> Tensor)
    (continuous : PPOActorContinuous.t) (discrete : PPOActorDiscrete.t)
    (distr : Distribution Act Tensor) (actions : Act) (critic_value old_logp : Tensor)
    (old_distr : option (Distribution Act Tensor)) :
  length (log_prob distr actions) = length critic_value ->
  length old_logp = length critic_value ->
  critic_value <> [] ->
  (PPOActorContinuous._c_entropy continuous = 0 ->
   PPOActorContinuous._c_kl continuous = 0 ->
   0 <= PPOActorContinuous._eps_clamp continuous < 1 ->
   exists loss,
     PPOActorContinuous.loss kl_divergence continuous distr actions critic_value
       old_logp old_distr = Ok loss
     /\ - (mean critic_value
           + PPOActorContinuous._eps_clamp continuous * mean (map Rabs critic_value))
        <= loss)
  /\ (PPOActorDiscrete._c_entropy discrete = 0 ->
      PPOActorDiscrete._c_kl discrete = 0 ->
      0 <= PPOActorDiscrete._eps_clamp discrete < 1 ->
      exists loss,
        PPOActorDiscrete.loss kl_divergence discrete distr actions critic_value
          old_logp old_distr = Ok loss
        /\ - (mean critic_value
              + PPOActorDiscrete._eps_clamp discrete * mean (map Rabs critic_value))
           <= loss).
Proof.
  intros Hlogp Hold Hne.
  assert (Hbound : forall eps, 0 <= eps < 1 ->
    - (mean critic_value + eps * mean (map Rabs critic_value))
    <= mean (clipped_objective eps (log_prob distr actions) old_logp critic_value)).
  { intros eps Heps. unfold mean, clipped_objective.
    rewrite length_map, map2_length by (rewrite map2_length; congruence).
    rewrite map2_length, Hlogp by congruence.
    assert (Hn : 0 < / INR (length critic_value)).
    { apply Rinv_0_lt_compat, lt_0_INR.
      destruct critic_value; [contradiction Hne; reflexivity | simpl; lia]. }
    pose proof (clipped_objective_bound eps
                  (map2 Rminus (log_prob distr actions) old_logp) critic_value Heps
                  ltac:(rewrite map2_length; congruence)) as H.
    unfold Rdiv. nra. }
  split.
  - intros Hce Hck Heps. unfold PPOActorContinuous.loss. rewrite Hce, Hck.
    rewrite loss_base by assumption. eexists. split; [reflexivity|].
    apply Hbound, Heps.
  - intros Hce Hck Heps. unfold PPOActorDiscrete.loss. rewrite Hce, Hck.
    rewrite loss_base by assumption. eexists. split; [reflexivity|].
    apply Hbound, Heps.
Qed.

Lemma ppo_loss_lower_bound_witness :
  exists loss,
    PPOActorDiscrete.loss kl_ex (PPOActorDiscrete.mk 0 (1 / 2) 0)
      (mkDistribution (fun _ => [1; -1]) [0; 0]) tt [1; -1] [0; 0] None = Ok loss
    /\ - (mean [1; -1] + 1 / 2 * mean (map Rabs [1; -1])) <= loss.
Proof.
  apply (proj2 (ppo_loss_lower_bound kl_ex (PPOActorContinuous.mk 0 (1 / 2) 0)
                  (PPOActorDiscrete.mk 0 (1 / 2) 0)
                  (mkDistribution (fun _ => [1; -1]) [0; 0]) tt [1; -1] [0; 0] None
                  eq_refl eq_refl ltac:(discriminate)));
    simpl; try reflexivity; lra.
Defined.

(** X24: when [old_logp] can not be broadcast against the log-probabilities
    of the actions, [loss] raises [RuntimeError], also when the KL penalty
    is requested and [old_distr] is missing: the argument check comes after
    the clipped term. *)
Theorem ppo_loss_shape_error {Act : Type}
    (kl_divergence : Distribution Act Tensor -> Distribution Act Tensor -> Tensor)
    (distr : Distribution Act Tensor) (actions : Act) (critic_value : Tensor)
    (c_entropy eps_clamp c_kl : R) (old_logp : Tensor)
    (old_distr : option (Distribution Act Tensor)) :
  length (log_prob distr actions) <> length old_logp ->
  length (log_prob distr actions) <> 1%nat ->
  length old_logp <> 1%nat ->
  PPO.loss kl_divergence distr actions critic_value c_entropy eps_clamp c_kl
    old_logp old_distr = Raise RuntimeError.
Proof.
  intros Hlen H1 H2. unfold PPO.loss.
  rewrite broadcast2_raise by assumption. reflexivity.
Qed.

Lemma ppo_loss_shape_error_witness :
  PPO.loss kl_ex distr_ex tt [1; 3] 0 (1 / 2) (1 / 10) [0; 0; 0] None
  = Raise RuntimeError.
Proof.
  apply (ppo_loss_shape_error kl_ex distr_ex tt [1; 3] 0 (1 / 2) (1 / 10) [0; 0; 0] None);
    discriminate.
Defined.

(** ** The summary of the logs (monitoring.py) *)

Lemma fold_best {A : Type} (le : A -> A -> Prop) (choose : A -> A -> A) :
  (forall x, le x x) ->
  (forall x y z, le x y -> le y z -> le x z) ->
  (forall best y, (choose best y = y /\ le best y) \/ (choose best y = best /\ le y best)) ->
  forall l x,
    In (fold_left choose l x) (x :: l)
    /\ forall y, In y (x :: l) -> le y (fold_left choose l x).
Proof.
  intros Hrefl Htrans Hchoose. induction l as [|y0 l IH]; intros x.
  - simpl. split; [left; reflexivity|]. intros y [<-|[]]. apply Hrefl.
  - simpl fold_left. destruct (IH (choose x y0)) as [Hin Hle]. split.
    + destruct Hin as [Heq|Hin]; [|right; right; exact Hin].
      rewrite <- Heq. destruct (Hchoose x y0) as [[-> _]|[-> _]].
      * right. left. reflexivity.
      * left. reflexivity.
    + assert (Hc : le (choose x y0) (fold_left choose l (choose x y0)))
        by (apply Hle; left; reflexivity).
      intros y [<-|[<-|Hy]].
      * destruct (Hchoose x y0) as [[Heq H]|[Heq H]].
        -- apply (Htrans _ (choose x y0)); [rewrite Heq; exact H | exact Hc].
        -- rewrite Heq in *. exact Hc.
      * destruct (Hchoose x y0) as [[Heq H]|[Heq H]].
        -- rewrite Heq in *. exact Hc.
        -- apply (Htrans _ (choose x y0)); [rewrite Heq; exact H | exact Hc].
      * apply Hle. right. exact Hy.
Qed.

Lemma max_spec {A : Type} (key : A -> R) (l : list A) :
  l <> [] ->
  exists x, Monitoring.max_ key l = inr x
            /\ In x l /\ forall y, In y l -> key y <= key x.
Proof.
  destruct l as [|x l]; [intros H; contradiction H; reflexivity|]. intros _.
  eexists. split; [reflexivity|].
  apply (fold_best (fun a b => key a <= key b)).
  - intros a. lra.
  - intros a b c. lra.
  - intros best y. destruct (Rlt_dec (key best) (key y)); [left | right];
      split; try reflexivity; lra.
Qed.

Lemma min_spec {A : Type} (key : A -> R) (l : list A) :
  l <> [] ->
  exists x, Monitoring.min_ key l = inr x
            /\ In x l /\ forall y, In y l -> key x <= key y.
Proof.
  destruct l as [|x l]; [intros H; contradiction H; reflexivity|]. intros _.
  eexists. split; [reflexivity|].
  apply (fold_best (fun a b => key b <= key a)).
  - intros a. lra.
  - intros a b c. lra.
  - intros best y. destruct (Rlt_dec (key y) (key best)); [left | right];
      split; try reflexivity; lra.
Qed.

(** X25: when both metrics have a nonempty series, [summary] prints the
    header and one line per metric and raises nothing.  The best entry of
    [Avg_adv_loss] has the smallest value of its series, the best entry of
    [Return] the largest, the current entry the largest timestamp.  On the
    line, the value of the best entry is followed, after [at ts], by the
    value of the current entry, and [Current value] shows the timestamp of
    the best entry: the arguments of the format are in this order. *)
Theorem summary_lines (logs : String.string -> option Monitoring.Series)
    (losses returns : Monitoring.Series) :
  logs Monitoring.Avg_adv_loss = Some losses ->
  logs Monitoring.Return = Some returns ->
  losses <> [] -> returns <> [] ->
  exists best_loss curr_loss best_return curr_return : R * R,
    Monitoring.summary logs =
      ([Monitoring.Summary;
        Monitoring.Metric Monitoring.Avg_adv_loss
          (snd best_loss) (snd curr_loss) (fst best_loss) (fst curr_loss);
        Monitoring.Metric Monitoring.Return
          (snd best_return) (snd curr_return) (fst best_return) (fst curr_return)],
       None)
    /\ In best_loss losses /\ In curr_loss losses
    /\ In best_return returns /\ In curr_return returns
    /\ (forall entry, In entry losses ->
          snd best_loss <= snd entry /\ fst entry <= fst curr_loss)
    /\ (forall entry, In entry returns ->
          snd entry <= snd best_return /\ fst entry <= fst curr_return).
Proof.
  intros Hl Hr Hnl Hnr.
  destruct (max_spec fst losses Hnl) as (cl & Hcl & Hcl_in & Hcl_max).
  destruct (min_spec snd losses Hnl) as (bl & Hbl & Hbl_in & Hbl_min).
  destruct (max_spec fst returns Hnr) as (cr & Hcr & Hcr_in & Hcr_max).
  destruct (max_spec snd returns Hnr) as (br & Hbr & Hbr_in & Hbr_max).
  exists bl, cl, br, cr.
  split; [|repeat split; auto].
  unfold Monitoring.summary, Monitoring.report.
  rewrite Hl, Hr, Hcl, Hbl, Hcr, Hbr.
  destruct bl, cl, br, cr. reflexivity.
Qed.

Lemma summary_lines_witness :
  exists best_loss curr_loss best_return curr_return : R * R,
    Monitoring.summary (fun _ => Some [(1, 5); (2, 3)]) =
      ([Monitoring.Summary;
        Monitoring.Metric Monitoring.Avg_adv_loss
          (snd best_loss) (snd curr_loss) (fst best_loss) (fst curr_loss);
        Monitoring.Metric Monitoring.Return
          (snd best_return) (snd curr_return) (fst best_return) (fst curr_return)],
       None).
Proof.
  destruct (summary_lines (fun _ => Some [(1, 5); (2, 3)]) [(1, 5); (2, 3)]
              [(1, 5); (2, 3)] eq_refl eq_refl ltac:(discriminate) ltac:(discriminate))
    as (bl & cl & br & cr & H & _).
  exists bl, cl, br, cr. exact H.
Defined.
